(** * User-identifier resolution of the Jira adapter

    A shallow embedding of [src/services/vendor.atlassian.users.service.ts]:
    the classifier predicates [isAccountId] and [isEmail], the time-bounded
    [UserCache], the two search strategies [searchUsersWithPicker] and
    [searchUsers], and the resolver [resolveUserIdentifier]; and of the
    workflow-transition path: the formatter
    [controllers/atlassian.issues.transitions.formatter.ts], its controller
    and the tools of [tools/atlassian.issues.transitions.tool.ts].

    Modelling conventions.
    - The users service looks inside its strings (regular expressions, case
      folding, URL encoding), so a JavaScript string is there a list of
      UTF-16 code units, [list N]; [js "..."] is the string of an ASCII
      literal.  The regular expressions have no [u] flag and work on code
      units.
    - [String.prototype.toLowerCase] is the one of the runtime: a member of
      the class [Runtime], known to lower-case the letters A-Z of an
      all-ASCII string, to be idempotent and to give the empty string for
      the empty string only.  The theorems hold for every such runtime;
      closed examples run with [ascii_runtime], on ASCII inputs, where
      every runtime agrees.
    - [encodeURIComponent] throws on a lone surrogate, as the language
      defines it.
    - The transitions formatter only concatenates; its texts are byte
      strings ([string]) in UTF-8.
    - [Date.now()] reads the field [now] of the world; a network round trip
      lets time pass.
    - An [async] function is a computation in the monad [M]: it threads the
      world and either returns a value or throws. *)

From Stdlib Require Import ZArith NArith Ascii String List Bool Lia.
From Stdlib Require Import DecimalString.
From stdpp Require Import base strings gmap.

Open Scope Z_scope.

(** A JavaScript string: its UTF-16 code units. *)
Abbreviation jsstring := (list N).

(** The code unit of an ASCII character, and the string of an ASCII
    literal. *)
Definition code (a : ascii) : N := N_of_ascii a.

Definition js (s : string) : jsstring := map code (list_ascii_of_string s).

(* ===================================================================== *)
(** * Regular expressions *)
(* ===================================================================== *)

(** The three patterns of the source are built from character classes,
    concatenation and iteration.  They are run by a derivative matcher. *)
Module Regex.

Inductive regex : Type :=
| Void
| Eps
| Class (p : N → bool)
| Cat (r1 r2 : regex)
| Alt (r1 r2 : regex)
| Star (r : regex).

Fixpoint nullable (r : regex) : bool :=
  match r with
  | Void => false
  | Eps => true
  | Class _ => false
  | Cat r1 r2 => nullable r1 && nullable r2
  | Alt r1 r2 => nullable r1 || nullable r2
  | Star _ => true
  end.

Fixpoint deriv (c : N) (r : regex) : regex :=
  match r with
  | Void => Void
  | Eps => Void
  | Class p => if p c then Eps else Void
  | Cat r1 r2 =>
      if nullable r1
      then Alt (Cat (deriv c r1) r2) (deriv c r2)
      else Cat (deriv c r1) r2
  | Alt r1 r2 => Alt (deriv c r1) (deriv c r2)
  | Star r1 => Cat (deriv c r1) (Star r1)
  end.

(** [matches r s]: the whole of [s] is a word of [r]. *)
Fixpoint matches (r : regex) (s : jsstring) : bool :=
  match s with
  | [] => nullable r
  | c :: s' => matches (deriv c r) s'
  end.

(** [r+], [r{n}], a literal character and the class of every character. *)
Definition Plus (r : regex) : regex := Cat r (Star r).

Fixpoint Repeat (n : nat) (r : regex) : regex :=
  match n with
  | O => Eps
  | S n' => Cat r (Repeat n' r)
  end.

Definition Lit (c : ascii) : regex := Class (N.eqb (code c)).

Definition AnyChar : regex := Class (fun _ => true).

(** [RegExp.prototype.test] for a pattern anchored with [^] and [$], and for
    a pattern anchored with [^] only (the rest of the subject is free). *)
Definition test_anchored (r : regex) (s : jsstring) : bool := matches r s.

Definition test_prefix (r : regex) (s : jsstring) : bool :=
  matches (Cat r (Star AnyChar)) s.

(** The words of a pattern, as a relation. *)
Inductive lang : regex → jsstring → Prop :=
| lang_eps : lang Eps []
| lang_class p c : p c = true → lang (Class p) [c]
| lang_cat r1 r2 s1 s2 :
    lang r1 s1 → lang r2 s2 → lang (Cat r1 r2) (s1 ++ s2)
| lang_alt_l r1 r2 s : lang r1 s → lang (Alt r1 r2) s
| lang_alt_r r1 r2 s : lang r2 s → lang (Alt r1 r2) s
| lang_star_nil r : lang (Star r) []
| lang_star_cons r s1 s2 :
    lang r s1 → lang (Star r) s2 → lang (Star r) (s1 ++ s2).

End Regex.

Import Regex.

(* ===================================================================== *)
(** * Classifier *)
(* ===================================================================== *)

Definition in_range (lo hi : ascii) (c : N) : bool :=
  (code lo <=? c)%N && (c <=? code hi)%N.

Definition is_char (a : ascii) (c : N) : bool := (c =? code a)%N.

(** [[0-9a-f]] *)
Definition hex_lower (c : N) : bool :=
  in_range "0" "9" c || in_range "a" "f" c.

(** [[0-9a-f-]] *)
Definition hex_lower_or_hyphen (c : N) : bool :=
  hex_lower c || is_char "-" c.

(** [A-F], the hexadecimal letters the two patterns leave out. *)
Definition hex_upper_letter (c : N) : bool := in_range "A" "F" c.

(** A hexadecimal digit in either case, or a hyphen: the characters of a
    UUID as it may be written. *)
Definition hex_or_hyphen (c : N) : bool :=
  hex_lower c || hex_upper_letter c || is_char "-" c.

Definition is_colon (c : N) : bool := is_char ":" c.

(** [\s]: the white space and line terminators of the language.  U+0009 to
    U+000D, U+0020, U+00A0, U+1680, U+2000 to U+200A, U+2028, U+2029,
    U+202F, U+205F, U+3000 and U+FEFF. *)
Definition is_space (c : N) : bool :=
  ((9 <=? c) && (c <=? 13) || (c =? 32) || (c =? 160) || (c =? 5760)
   || (8192 <=? c) && (c <=? 8202) || (c =? 8232) || (c =? 8233)
   || (c =? 8239) || (c =? 8287) || (c =? 12288) || (c =? 65279))%N.

(** [[^\s@]] *)
Definition not_space_or_at (c : N) : bool :=
  negb (is_space c || is_char "@" c).

(** [/^[0-9a-f]{6}:/] *)
Definition re_accountId_prefix : regex :=
  Cat (Repeat 6 (Class hex_lower)) (Lit ":").

(** [/^[0-9a-f-]{36}$/] *)
Definition re_accountId_uuid : regex := Repeat 36 (Class hex_lower_or_hyphen).

(** [/^[^\s@]+@[^\s@]+\.[^\s@]+$/] *)
Definition re_email : regex :=
  Cat (Plus (Class not_space_or_at))
    (Cat (Lit "@")
       (Cat (Plus (Class not_space_or_at))
          (Cat (Lit ".") (Plus (Class not_space_or_at))))).

Definition isAccountId (identifier : jsstring) : bool :=
  test_prefix re_accountId_prefix identifier
  || test_anchored re_accountId_uuid identifier.

Definition isEmail (identifier : jsstring) : bool :=
  test_anchored re_email identifier.

(* ===================================================================== *)
(** * The runtime *)
(* ===================================================================== *)

(** Lower-casing of an ASCII character, and the ASCII range. *)
Definition lower_ascii (c : N) : N :=
  if in_range "A" "Z" c then (c + 32)%N else c.

Definition is_ascii (c : N) : bool := (c <? 128)%N.

(** [String.prototype.toLowerCase].  Its table is the runtime's (it follows
    the Unicode version of the engine); the service relies on it as a
    function, of which three facts are used: on a string of ASCII
    characters it lower-cases the letters A-Z and leaves the rest;
    lower-casing twice is lower-casing once; only the empty string has an
    empty lower-case form. *)
Class Runtime : Type := {
  toLowerCase : jsstring → jsstring;
  toLowerCase_ascii :
    ∀ s, forallb is_ascii s = true → toLowerCase s = map lower_ascii s;
  toLowerCase_idempotent :
    ∀ s, toLowerCase (toLowerCase s) = toLowerCase s;
  toLowerCase_nil :
    ∀ s, toLowerCase s = [] → s = []
}.

(** The runtime of the examples: it folds A-Z and nothing else.  Every
    runtime agrees with it on strings of ASCII characters. *)
Definition ascii_runtime : Runtime.
Proof.
  refine {| toLowerCase := map lower_ascii |}.
  - reflexivity.
  - intros s. rewrite map_map. apply map_ext. intros c.
    unfold lower_ascii, in_range.
    change (code "A") with 65%N. change (code "Z") with 90%N.
    destruct ((65 <=? c)%N && (c <=? 90)%N) eqn:E; [| by rewrite E].
    apply andb_true_iff in E as [H1 H2].
    apply N.leb_le in H1, H2.
    destruct ((65 <=? c + 32)%N && (c + 32 <=? 90)%N) eqn:E'; [| done].
    apply andb_true_iff in E' as [_ H3]. apply N.leb_le in H3. lia.
  - intros s. apply map_eq_nil.
Defined.

(** Equality of strings up to the case of the letters A-Z: what
    "case-insensitively equal" means for strings of ASCII characters,
    stated without [toLowerCase]. *)
Definition same_letter (a b : N) : bool :=
  ((a =? b)
   || in_range "A" "Z" a && (b =? a + 32)
   || in_range "A" "Z" b && (a =? b + 32))%N.

Fixpoint same_letters (s1 s2 : jsstring) : bool :=
  match s1, s2 with
  | [], [] => true
  | a :: s1', b :: s2' => same_letter a b && same_letters s1' s2'
  | _, _ => false
  end.

(* ===================================================================== *)
(** * Data model *)
(* ===================================================================== *)

Record AvatarUrls : Type := {
  avatar48 : option jsstring;
  avatar24 : option jsstring;
  avatar16 : option jsstring;
  avatar32 : option jsstring
}.

(** [UserSchema] *)
Record User : Type := {
  accountId : jsstring;
  accountType : option jsstring;
  emailAddress : option jsstring;
  displayName : option jsstring;
  name : option jsstring;
  avatarUrls : option AvatarUrls;
  active : option bool
}.

Record PickerUsers : Type := {
  users_found : list User;
  users_total : Z
}.

Record PickerGroups : Type := {
  groups_found : list string;
  groups_total : Z
}.

(** [GroupUserPickerResponseSchema]: both sections are optional. *)
Record GroupUserPickerResponse : Type := {
  users : option PickerUsers;
  groups : option PickerGroups
}.

Record Credentials : Type := {
  siteName : string;
  userEmail : string;
  apiToken : string
}.

(** What a strategy body can throw: the error built by
    [createAuthMissingError], the [URIError] of [encodeURIComponent], and
    the failures of [fetchAtlassian]. *)
Inductive Error : Type :=
| AuthMissing (message : string)
| URIError (message : string)
| HttpError (status : Z) (body : string)
| NetworkError (message : string).

Definition createAuthMissingError (message : string) : Error :=
  AuthMissing message.

(** The two endpoints a resolution can reach. *)
Inductive Strategy : Type := Picker | Directory.

Global Instance Strategy_eq_dec : EqDecision Strategy.
Proof. solve_decision. Defined.

(** An entry of the [Map] held by [UserCache]. *)
Record CacheEntry : Type := {
  entry_accountId : jsstring;
  timestamp : Z
}.

(** The collaborators of [transport.util]: the credential provider and the
    two instances of the generic [fetchAtlassian<T>] the service uses.  An
    answer may depend on how many requests were sent before it, so that a
    server (or a mock) may answer the same request differently over time;
    [latency n] is the time request number [n] takes. *)
Record Transport : Type := {
  getAtlassianCredentials : option Credentials;
  fetch_picker :
    nat → Credentials → jsstring → Error + GroupUserPickerResponse;
  fetch_users : nat → Credentials → jsstring → Error + list User;
  latency : nat → Z
}.

(** The mutable state a resolution runs in: the cache of the module-level
    [userCache], the clock, the request paths handed to [fetchAtlassian] so
    far, and the strategy calls made so far (oldest first). *)
Record World : Type := {
  cache : gmap (list N) CacheEntry;
  now : Z;
  fetched : list jsstring;
  invoked : list (Strategy * jsstring)
}.

(* ===================================================================== *)
(** * Computations *)
(* ===================================================================== *)

Inductive outcome (A : Type) : Type :=
| Returned (a : A)
| Thrown (e : Error).

Arguments Returned {A} a.
Arguments Thrown {A} e.

Definition M (A : Type) : Type := World → outcome A * World.

Definition ret {A : Type} (a : A) : M A := fun w => (Returned a, w).

Definition throw {A : Type} (e : Error) : M A := fun w => (Thrown e, w).

Definition bind {A B : Type} (m : M A) (k : A → M B) : M B :=
  fun w =>
    match m w with
    | (Returned a, w') => k a w'
    | (Thrown e, w') => (Thrown e, w')
    end.

(** [try { body } catch (error) { handler }] *)
Definition try_catch {A : Type} (body : M A) (handler : Error → M A) : M A :=
  fun w =>
    match body w with
    | (Returned a, w') => (Returned a, w')
    | (Thrown e, w') => handler e w'
    end.

Declare Scope M_scope.
Delimit Scope M_scope with M.
Bind Scope M_scope with M.

Notation "'let*' x ':=' m 'in' k" := (bind m (fun x => k))
  (at level 10, x name, m at level 100, k at level 200) : M_scope.

Notation "m ;;; k" := (bind m (fun _ => k))
  (at level 100, k at level 200, right associativity) : M_scope.

Open Scope M_scope.

Definition Date_now : M Z := fun w => (Returned (now w), w).

Definition cache_lookup (key : jsstring) : M (option CacheEntry) :=
  fun w => (Returned (cache w !! key), w).

Definition cache_delete (key : jsstring) : M unit :=
  fun w =>
    (Returned tt,
     {| cache := delete key (cache w); now := now w;
        fetched := fetched w; invoked := invoked w |}).

Definition cache_insert (key : jsstring) (e : CacheEntry) : M unit :=
  fun w =>
    (Returned tt,
     {| cache := <[key := e]> (cache w); now := now w;
        fetched := fetched w; invoked := invoked w |}).

Definition note_invoked (s : Strategy) (query : jsstring) : M unit :=
  fun w =>
    (Returned tt,
     {| cache := cache w; now := now w; fetched := fetched w;
        invoked := invoked w ++ [(s, query)] |}).

(** JavaScript truthiness of a string: every string but the empty one. *)
Definition truthy (s : jsstring) : bool :=
  match s with
  | [] => false
  | _ :: _ => true
  end.

(** [===] on strings. *)
Fixpoint same_string (s1 s2 : jsstring) : bool :=
  match s1, s2 with
  | [], [] => true
  | c1 :: s1', c2 :: s2' => (c1 =? c2)%N && same_string s1' s2'
  | _, _ => false
  end.

(* ===================================================================== *)
(** * Cache *)
(* ===================================================================== *)

(** [TTL = 1000 * 60 * 60], one hour in milliseconds. *)
Definition TTL : Z := 1000 * 60 * 60.

Section Cache.

Context {rt : Runtime}.

Definition UserCache_get (identifier : jsstring) : M (option jsstring) :=
  let* cached := cache_lookup (toLowerCase identifier) in
  match cached with
  | Some e =>
      let* t := Date_now in
      if t - timestamp e <? TTL
      then ret (Some (entry_accountId e))
      else (cache_delete (toLowerCase identifier) ;;; ret None)
  | None => ret None
  end.

Definition UserCache_set (identifier accountId : jsstring) : M unit :=
  let* t := Date_now in
  cache_insert (toLowerCase identifier)
    {| entry_accountId := accountId; timestamp := t |}.

End Cache.

Definition UserCache_clear : M unit :=
  fun w =>
    (Returned tt,
     {| cache := ∅; now := now w; fetched := fetched w;
        invoked := invoked w |}).

(* ===================================================================== *)
(** * Search strategies *)
(* ===================================================================== *)

(** The characters [encodeURIComponent] leaves as they are:
    letters, digits and [- _ . ! ~ * ' ( )]. *)
Definition uri_unreserved (c : N) : bool :=
  in_range "a" "z" c || in_range "A" "Z" c || in_range "0" "9" c
  || is_char "-" c || is_char "_" c || is_char "." c
  || is_char "!" c || is_char "~" c || is_char "*" c
  || is_char "'" c || is_char "(" c || is_char ")" c.

(** The two halves of a surrogate pair: U+D800 to U+DBFF and U+DC00 to
    U+DFFF. *)
Definition is_high_surrogate (c : N) : bool :=
  ((55296 <=? c) && (c <=? 56319))%N.

Definition is_low_surrogate (c : N) : bool :=
  ((56320 <=? c) && (c <=? 57343))%N.

(** The code point of a surrogate pair. *)
Definition code_point (high low : N) : N :=
  (65536 + (high - 55296) * 1024 + (low - 56320))%N.

(** The octets of a code point in UTF-8. *)
Definition utf8 (cp : N) : list N :=
  (if cp <? 128 then [cp]
   else if cp <? 2048 then [192 + cp / 64; 128 + cp mod 64]
   else if cp <? 65536
        then [224 + cp / 4096; 128 + (cp / 64) mod 64; 128 + cp mod 64]
        else [240 + cp / 262144; 128 + (cp / 4096) mod 64;
              128 + (cp / 64) mod 64; 128 + cp mod 64])%N.

Definition hex_digit (n : N) : N :=
  (if n <? 10 then 48 + n else 55 + n)%N.

(** [%XX] for an octet. *)
Definition percent_encode (octet : N) : jsstring :=
  [code "%"; hex_digit (octet / 16); hex_digit (octet mod 16)].

Definition escape (cp : N) : jsstring := flat_map percent_encode (utf8 cp).

(** [encodeURIComponent]: [None] stands for the [URIError] thrown on a
    surrogate without its other half. *)
Fixpoint encodeURIComponent (s : jsstring) : option jsstring :=
  match s with
  | [] => Some []
  | c :: rest =>
      if uri_unreserved c
      then option_map (cons c) (encodeURIComponent rest)
      else if is_low_surrogate c then None
      else if is_high_surrogate c
      then match rest with
           | low :: rest' =>
               if is_low_surrogate low
               then option_map (app (escape (code_point c low)))
                      (encodeURIComponent rest')
               else None
           | [] => None
           end
      else option_map (app (escape c)) (encodeURIComponent rest)
  end.

(** The two template literals, around the encoded query. *)
Definition picker_path (encodedQuery : jsstring) : jsstring :=
  js "/rest/api/3/groupuserpicker?query=" ++ encodedQuery
  ++ js "&maxResults=10&showAvatar=false".

Definition search_path (encodedQuery : jsstring) : jsstring :=
  js "/rest/api/3/user/search?query=" ++ encodedQuery
  ++ js "&maxResults=10".

(** [!users || users.length === 0] *)
Definition no_results (users : option (list User)) : bool :=
  match users with
  | None => true
  | Some [] => true
  | Some (_ :: _) => false
  end.

Section Matching.

Context {rt : Runtime}.

(** [field?.toLowerCase() === identifier.toLowerCase()] *)
Definition same_ignoring_case (field : option jsstring)
    (identifier : jsstring) : bool :=
  match field with
  | Some v => same_string (toLowerCase v) (toLowerCase identifier)
  | None => false
  end.

(** The predicate handed to [users.find]. *)
Definition exact_match (identifier : jsstring) (u : User) : bool :=
  same_ignoring_case (emailAddress u) identifier
  || same_ignoring_case (name u) identifier
  || same_ignoring_case (displayName u) identifier.

(** [users.find(...)], and [users[0]] when nothing is found. *)
Definition select_user (identifier : jsstring) (candidates : list User)
  : option User :=
  match find (exact_match identifier) candidates with
  | Some u => Some u
  | None => head candidates
  end.

End Matching.

Section Service.

Context {rt : Runtime}.

Variable env : Transport.

(** [await fetchAtlassian<T>(credentials, path)]: the request is recorded,
    time passes, and the call returns the answer or throws. *)
Definition fetchAtlassian {T : Type}
    (endpoint : nat → Credentials → jsstring → Error + T)
    (credentials : Credentials) (path : jsstring) : M T :=
  fun w =>
    let n := length (fetched w) in
    let w' := {| cache := cache w; now := now w + latency env n;
                 fetched := fetched w ++ [path]; invoked := invoked w |} in
    match endpoint n credentials path with
    | inl e => (Thrown e, w')
    | inr response => (Returned response, w')
    end.

(** [getAtlassianCredentials()] followed by the guard
    [if (!credentials) throw createAuthMissingError('user search')]. *)
Definition require_credentials : M Credentials :=
  match getAtlassianCredentials env with
  | Some credentials => ret credentials
  | None => throw (createAuthMissingError "user search")
  end.

(** [const encodedQuery = encodeURIComponent(query)] *)
Definition encode_query (query : jsstring) : M jsstring :=
  match encodeURIComponent query with
  | Some encodedQuery => ret encodedQuery
  | None => throw (URIError "URI malformed")
  end.

(** [response.users?.users || null]: an array, even an empty one, is
    truthy. *)
Definition picker_users (response : GroupUserPickerResponse)
  : option (list User) :=
  match users response with
  | Some section => Some (users_found section)
  | None => None
  end.

Definition searchUsersWithPicker (query : jsstring)
  : M (option (list User)) :=
  note_invoked Picker query ;;;
  try_catch
    (let* credentials := require_credentials in
     let* encodedQuery := encode_query query in
     let requestPath := picker_path encodedQuery in
     let* response :=
       fetchAtlassian (fetch_picker env) credentials requestPath in
     ret (picker_users response))
    (fun error => ret None).

Definition searchUsers (query : jsstring) : M (option (list User)) :=
  note_invoked Directory query ;;;
  try_catch
    (let* credentials := require_credentials in
     let* encodedQuery := encode_query query in
     let requestPath := search_path encodedQuery in
     let* response :=
       fetchAtlassian (fetch_users env) credentials requestPath in
     ret (Some response))
    (fun error => ret None).

(* ===================================================================== *)
(** * Resolver *)
(* ===================================================================== *)

(** Lines 214-230: the three attempts, each one made only when the one
    before left [users] null or empty. *)
Definition search_chain (identifier : jsstring) : M (option (list User)) :=
  let* users :=
    if isEmail identifier then searchUsersWithPicker identifier
    else ret None in
  let* users :=
    if no_results users then searchUsers identifier else ret users in
  let* users :=
    if no_results users then searchUsersWithPicker identifier
    else ret users in
  ret users.

(** Lines 232-255: choose a record, cache and return its account id. *)
Definition settle (identifier : jsstring) (users : option (list User))
  : M (option jsstring) :=
  if negb (no_results users)
  then
    match select_user identifier (default [] users) with
    | Some user =>
        if truthy (accountId user)
        then (UserCache_set identifier (accountId user) ;;;
              ret (Some (accountId user)))
        else ret None
    | None => ret None
    end
  else ret None.

(** Lines 212-255: what runs after a cache miss. *)
Definition resolve_by_search (identifier : jsstring) : M (option jsstring) :=
  let* users := search_chain identifier in
  settle identifier users.

(** Lines 206-255: the cache read and what follows it. *)
Definition resolve_by_cache_and_search (identifier : jsstring)
  : M (option jsstring) :=
  let* cached := UserCache_get identifier in
  match cached with
  | Some found =>
      if truthy found then ret (Some found)
      else resolve_by_search identifier
  | None => resolve_by_search identifier
  end.

Definition resolveUserIdentifier (identifier : jsstring)
  : M (option jsstring) :=
  if negb (truthy identifier) then ret None
  else if isAccountId identifier then ret (Some identifier)
  else resolve_by_cache_and_search identifier.

End Service.

Definition clearUserCache : M unit := UserCache_clear.

(* ===================================================================== *)
(** * Concrete environments *)
(* ===================================================================== *)

(** The values the test suite mocks the transport with. *)
Definition mockCredentials : Credentials :=
  {| siteName := "test"; userEmail := "admin@example.com";
     apiToken := "test-token" |}.

Definition mk_user (id : string) (email display login : option string)
  : User :=
  {| accountId := js id; accountType := None; emailAddress := js <$> email;
     displayName := js <$> display; name := js <$> login;
     avatarUrls := None; active := Some true |}.

Definition picker_answer (found : list User) : GroupUserPickerResponse :=
  {| users := Some {| users_found := found;
                      users_total := Z.of_nat (length found) |};
     groups := None |}.

Definition empty_world : World :=
  {| cache := ∅; now := 0; fetched := []; invoked := [] |}.

(** No credentials are configured. *)
Definition env_no_credentials : Transport :=
  {| getAtlassianCredentials := None;
     fetch_picker := fun _ _ _ => inl (NetworkError "unreachable");
     fetch_users := fun _ _ _ => inl (NetworkError "unreachable");
     latency := fun _ => 0 |}.

(** Every request succeeds and finds nobody. *)
Definition env_nobody : Transport :=
  {| getAtlassianCredentials := Some mockCredentials;
     fetch_picker := fun _ _ _ => inr (picker_answer []);
     fetch_users := fun _ _ _ => inr [];
     latency := fun _ => 5 |}.

(** The picker answers successfully with neither a [users] nor a [groups]
    section; the schema makes both optional. *)
Definition env_picker_no_section : Transport :=
  {| getAtlassianCredentials := Some mockCredentials;
     fetch_picker := fun _ _ _ => inr {| users := None; groups := None |};
     fetch_users := fun _ _ _ => inr [];
     latency := fun _ => 5 |}.

Definition cachedUser : User :=
  mk_user "557058:cached-user" (Some "cached@example.com")
    (Some "Cached User") None.

(** The test 'should use cache for repeated lookups'. *)
Definition env_cached : Transport :=
  {| getAtlassianCredentials := Some mockCredentials;
     fetch_picker := fun _ _ _ => inr (picker_answer [cachedUser]);
     fetch_users := fun _ _ _ => inr [cachedUser];
     latency := fun _ => 5 |}.

Definition johnDoe : User :=
  mk_user "557058:user-id-456" None (Some "John Doe") (Some "johndoe").

Definition janeRoe : User :=
  mk_user "557058:user-id-789" None (Some "Jane Roe") (Some "janeroe").

(** The directory search is refused (the permission is missing), the picker
    finds two people. *)
Definition env_directory_refused : Transport :=
  {| getAtlassianCredentials := Some mockCredentials;
     fetch_picker := fun _ _ _ => inr (picker_answer [janeRoe; johnDoe]);
     fetch_users := fun _ _ _ => inl (HttpError 403 "Forbidden");
     latency := fun _ => 5 |}.

(** A world whose cache holds one entry, written at time 0, read at [t]. *)
Definition world_with_entry (key id : string) (t : Z) : World :=
  {| cache := {[ js key := {| entry_accountId := js id; timestamp := 0 |} ]};
     now := t; fetched := []; invoked := [] |}.

(** The strategy calls a computation adds to the log. *)
Definition invoked_by {A : Type} (m : M A) (w : World)
  : list (Strategy * jsstring) :=
  drop (length (invoked w)) (invoked (snd (m w))).

(** The requests a computation sends. *)
Definition fetched_by {A : Type} (m : M A) (w : World) : list jsstring :=
  drop (length (fetched w)) (fetched (snd (m w))).

(** An identifier with a no-break space (U+00A0) before the [@], and one
    that is a lone high surrogate (U+D800). *)
Definition spaced_address : jsstring := js "a" ++ [160%N] ++ js "b@c.de".

Definition lone_surrogate : jsstring := [55296%N].

(* ===================================================================== *)
(** * Observations *)
(* ===================================================================== *)

(** The request path of a strategy for a query, when the query can be
    encoded. *)
Definition path_of (s : Strategy) (query : jsstring) : option jsstring :=
  match s with
  | Picker => picker_path <$> encodeURIComponent query
  | Directory => search_path <$> encodeURIComponent query
  end.

(** The world a strategy call leaves: the call is logged; with credentials
    and a query that can be encoded one request is sent and time passes,
    otherwise nothing else moves. *)
Definition after_call (env : Transport) (s : Strategy) (query : jsstring)
    (w : World) : World :=
  match getAtlassianCredentials env, path_of s query with
  | Some _, Some path =>
      {| cache := cache w; now := now w + latency env (length (fetched w));
         fetched := fetched w ++ [path];
         invoked := invoked w ++ [(s, query)] |}
  | _, _ =>
      {| cache := cache w; now := now w; fetched := fetched w;
         invoked := invoked w ++ [(s, query)] |}
  end.

(** What happened to a strategy call made in world [w]: the credentials
    were missing, the query could not be encoded, the transport failed, or
    it answered. *)
Inductive Exchange (T : Type) : Type :=
| NoCredentials
| NotEncodable
| Failed (e : Error)
| Answered (response : T).

Arguments NoCredentials {T}.
Arguments NotEncodable {T}.
Arguments Failed {T} e.
Arguments Answered {T} response.

Definition exchange {T : Type} (env : Transport)
    (endpoint : nat → Credentials → jsstring → Error + T)
    (path : option jsstring) (w : World) : Exchange T :=
  match getAtlassianCredentials env with
  | None => NoCredentials
  | Some credentials =>
      match path with
      | None => NotEncodable
      | Some p =>
          match endpoint (length (fetched w)) credentials p with
          | inl e => Failed e
          | inr response => Answered response
          end
      end
  end.

(** A strategy call that brought no candidate: it threw, returned null or
    returned an empty list. *)
Definition yields_nothing (m : M (option (list User))) (w : World) : bool :=
  match fst (m w) with
  | Returned users => no_results users
  | Thrown _ => true
  end.

Section Observations.

Context {rt : Runtime}.

(** The cache read of a resolution found nothing it can return: no entry,
    an expired one, or one whose account id is the empty string. *)
Definition cache_miss (identifier : jsstring) (w : World) : bool :=
  match fst (UserCache_get identifier w) with
  | Returned (Some found) => negb (truthy found)
  | _ => true
  end.

(** The entry stored under the identifier is younger than the TTL. *)
Definition fresh_entry (identifier : jsstring) (w : World) : bool :=
  match cache w !! toLowerCase identifier with
  | Some e => now w - timestamp e <? TTL
  | None => false
  end.

(** Every key of the cache is in lower case and every stored account id is
    a non-empty string. *)
Definition cache_ok (w : World) : Prop :=
  map_Forall
    (λ key e, toLowerCase key = key ∧ entry_accountId e ≠ []) (cache w).

(** The world with the entry under the identifier's key removed. *)
Definition without_entry (identifier : jsstring) (w : World) : World :=
  {| cache := delete (toLowerCase identifier) (cache w); now := now w;
     fetched := fetched w; invoked := invoked w |}.

End Observations.

(** The request a strategy call sends, if its query can be encoded. *)
Definition request_of (call : Strategy * jsstring) : option jsstring :=
  path_of call.1 call.2.

(* ===================================================================== *)
(** * Sessions *)
(* ===================================================================== *)

(** What a client of the service can do, one operation after the other:
    resolve an identifier, clear the cache, or let time pass. *)
Inductive Op : Type :=
| OpResolve (identifier : jsstring)
| OpClear
| OpWait (milliseconds : Z).

Definition is_resolve (op : Op) : bool :=
  match op with
  | OpResolve _ => true
  | _ => false
  end.

Section Sessions.

Context {rt : Runtime}.

Definition step (env : Transport) (w : World) (op : Op) : World :=
  match op with
  | OpResolve identifier => snd (resolveUserIdentifier env identifier w)
  | OpClear => snd (clearUserCache w)
  | OpWait ms =>
      {| cache := cache w; now := now w + ms; fetched := fetched w;
         invoked := invoked w |}
  end.

Definition run (env : Transport) (ops : list Op) (w : World) : World :=
  fold_left (step env) ops w.

End Sessions.

(* ===================================================================== *)
(** * Transitions: data *)
(* ===================================================================== *)

(** The parts of [GetTransitionsResponse] and [Issue] (declared in
    [vendor.atlassian.issues.types], which the formatter imports) that the
    formatter reads, with the optionality its guards and the tests show.
    [id] and [name] of a transition are [transition_id] and
    [transition_name]; [name] of a status category, of a target status, of
    a field and of an issue status are [category_name], [target_name],
    [field_name] and [status_name]. *)
Record StatusCategory : Type := {
  category_name : string;
  colorName : string
}.

Record TargetStatus : Type := {
  target_name : string;
  description : option string;
  statusCategory : option StatusCategory
}.

(** A field of a transition screen ([field: any] in the source): the
    truthiness of [required], and [name]. *)
Record ScreenField : Type := {
  required : bool;
  field_name : option string
}.

(** [fields] holds the entries in the order [Object.entries] lists them. *)
Record Transition : Type := {
  transition_id : string;
  transition_name : string;
  to : TargetStatus;
  hasScreen : option bool;
  transition_fields : option (list (string * ScreenField))
}.

Record GetTransitionsResponse : Type := {
  transitions : option (list Transition)
}.

Record IssueStatus : Type := {
  status_name : string
}.

Record IssueFields : Type := {
  summary : string;
  status : option IssueStatus
}.

Record Issue : Type := {
  issue_id : string;
  issue_key : string;
  issue_fields : IssueFields
}.

(* ===================================================================== *)
(** * Transitions: formatter *)
(* ===================================================================== *)

Definition newline : string := String "010" "".

(** [lines.join('\n')] *)
Definition join_lines (lines : list string) : string :=
  String.concat newline lines.

(** A number inside a template literal. *)
Definition decimal (n : nat) : string :=
  NilZero.string_of_uint (Nat.to_uint n).

(** Truthiness of a text, of an optional text and of an optional
    boolean. *)
Definition nonempty (v : string) : bool := negb (String.eqb v "").

Definition present (field : option string) : option string :=
  match field with
  | Some v => if nonempty v then Some v else None
  | None => None
  end.

Definition is_set (flag : option bool) : bool :=
  match flag with
  | Some true => true
  | _ => false
  end.

(** One entry of [Object.entries(transition.fields)]. *)
Definition field_line (entry : string * ScreenField) : string :=
  "- **" +:+ default entry.1 (present (field_name entry.2)) +:+ "** "
  +:+ (if required entry.2 then "**[Required]**" else "[Optional]").

(** The lines pushed when [transition.hasScreen] holds. *)
Definition screen_lines (t : Transition) : list string :=
  ["";
   "⚠️ **Note:** This transition has a screen with additional fields."]
  ++ match transition_fields t with
     | Some (entry :: entries) =>
         [""; "### Required/Available Fields:"]
         ++ map field_line (entry :: entries)
     | _ => []
     end.

(** The body of the [forEach] callback. *)
Definition transition_lines (index : nat) (t : Transition) : list string :=
  ["## " +:+ decimal (index + 1) +:+ ". " +:+ transition_name t;
   "**ID:** `" +:+ transition_id t +:+ "`";
   "**Target Status:** " +:+ target_name (to t)]
  ++ match present (description (to t)) with
     | Some text => ["**Description:** " +:+ text]
     | None => []
     end
  ++ match statusCategory (to t) with
     | Some category =>
         ["**Category:** " +:+ category_name category +:+ " ("
          +:+ colorName category +:+ ")"]
     | None => []
     end
  ++ (if is_set (hasScreen t) then screen_lines t else [])
  ++ [""; "---"; ""].

Definition heading_lines (issueIdOrKey : string) : list string :=
  ["# Available Transitions for " +:+ issueIdOrKey; ""].

Definition no_transition_lines : list string :=
  ["*No transitions available from the current status.*";
   "";
   "This could mean:";
   "- The issue is in a final state";
   "- You don't have permission to transition this issue";
   "- The workflow doesn't allow transitions from the current status"].

Definition usage_lines (issueIdOrKey : string) : list string :=
  ["## Usage";
   "To transition this issue, use the `jira_transition_issue` tool with:";
   "- `issueIdOrKey`: " +:+ issueIdOrKey;
   "- `transitionId`: One of the IDs listed above";
   "- `comment`: (optional) Add a comment with the transition";
   "- `fields`: (optional) Set additional fields if required"].

(** The array [lines] at the [return] of [formatTransitions]. *)
Definition formatTransitions_lines (response : GetTransitionsResponse)
    (issueIdOrKey : string) : list string :=
  match transitions response with
  | Some (t :: ts) =>
      heading_lines issueIdOrKey
      ++ ["Found **" +:+ decimal (length (t :: ts))
          +:+ "** available transition(s):";
          ""]
      ++ concat (imap transition_lines (t :: ts))
      ++ usage_lines issueIdOrKey
  | _ => heading_lines issueIdOrKey ++ no_transition_lines
  end.

Definition formatTransitions (response : GetTransitionsResponse)
    (issueIdOrKey : string) : string :=
  join_lines (formatTransitions_lines response issueIdOrKey).

(** [updatedIssue.fields.status?.name || 'Unknown'] *)
Definition status_label (updatedIssue : Issue) : string :=
  match status (issue_fields updatedIssue) with
  | Some st =>
      if nonempty (status_name st) then status_name st else "Unknown"
  | None => "Unknown"
  end.

Definition formatTransitionResult_lines (issueIdOrKey transitionId : string)
    (updatedIssue : Issue) : list string :=
  ["# Transition Completed Successfully";
   "";
   "✅ Issue **" +:+ issueIdOrKey +:+ "** has been transitioned.";
   "";
   "## Updated Issue Status";
   "- **Issue:** " +:+ issue_key updatedIssue;
   "- **Summary:** " +:+ summary (issue_fields updatedIssue);
   "- **New Status:** " +:+ status_label updatedIssue;
   "";
   "The transition with ID `" +:+ transitionId
   +:+ "` was successfully applied."].

Definition formatTransitionResult (issueIdOrKey transitionId : string)
    (updatedIssue : Issue) : string :=
  join_lines (formatTransitionResult_lines issueIdOrKey transitionId
                updatedIssue).

(** The number of lines a transition takes in the listing. *)
Definition block_size (t : Transition) : nat :=
  (6 + match present (description (to t)) with Some _ => 1 | None => 0 end
   + match statusCategory (to t) with Some _ => 1 | None => 0 end
   + (if is_set (hasScreen t)
      then 2 + match transition_fields t with
               | Some (entry :: entries) => 2 + length (entry :: entries)
               | _ => 0
               end
      else 0))%nat.

(** The position of the heading of transition number [k] (from 0). *)
Definition block_offset (ts : list Transition) (k : nat) : nat :=
  (4 + sum_list (map block_size (take k ts)))%nat.

(** A transition as the listing shows it: without its fields when it has no
    screen. *)
Definition without_hidden_fields (t : Transition) : Transition :=
  if is_set (hasScreen t) then t
  else {| transition_id := transition_id t;
          transition_name := transition_name t;
          to := to t; hasScreen := hasScreen t;
          transition_fields := None |}.

Fixpoint count_newlines (s : string) : nat :=
  match s with
  | EmptyString => 0
  | String c s' =>
      ((if Ascii.eqb c "010" then 1 else 0) + count_newlines s')%nat
  end.

(** Two transitions of the formatter's tests. *)
Definition transition_toDo : Transition :=
  {| transition_id := "11"; transition_name := "To Do";
     to := {| target_name := "To Do";
              description := Some "Work has not started";
              statusCategory :=
                Some {| category_name := "To Do";
                        colorName := "blue-gray" |} |};
     hasScreen := Some false; transition_fields := None |}.

Definition transition_inProgress : Transition :=
  {| transition_id := "21"; transition_name := "In Progress";
     to := {| target_name := "In Progress";
              description := Some "Work is ongoing";
              statusCategory :=
                Some {| category_name := "In Progress";
                        colorName := "yellow" |} |};
     hasScreen := Some false; transition_fields := None |}.

(** The issue with its status name replaced. *)
Definition with_status_name (label : string) (updatedIssue : Issue) : Issue :=
  {| issue_id := issue_id updatedIssue;
     issue_key := issue_key updatedIssue;
     issue_fields :=
       {| summary := summary (issue_fields updatedIssue);
          status := Some {| status_name := label |} |} |}.

(* ===================================================================== *)
(** * Transitions: controller and tools *)
(* ===================================================================== *)

(** A value the code hands on without looking at it ([z.unknown()]). *)
Inductive Unknown : Type := unknown (json : string).

(** [GetTransitionsToolArgs] and [TransitionIssueToolArgs] of
    [atlassian.issues.transitions.types]. *)
Record GetTransitionsToolArgs : Type := {
  get_issueIdOrKey : string;
  get_transitionId : option string;
  get_expand : option string
}.

Record TransitionIssueToolArgs : Type := {
  issueIdOrKey : string;
  transitionId : string;
  comment : option string;
  fields : option (list (string * Unknown));
  update : option (list (string * list Unknown))
}.

(** [{ transition: { id }, fields, update }] *)
Record TransitionParams : Type := {
  transition : string;
  params_fields : option (list (string * Unknown));
  params_update : option (list (string * list Unknown))
}.

(** The calls the controller makes on [atlassianIssuesService]. *)
Inductive ServiceCall : Type :=
| GetTransitionsCall (issue : string)
| TransitionIssueCall (issue : string) (params : TransitionParams)
| AddCommentCall (issue : string) (body : string)
| GetIssueCall (issue : string) (wanted : list string).

(** [atlassianIssuesService] (of [vendor.atlassian.issues.service], which
    the controller imports), as the controller sees it: each call answers
    or throws, and the answer may depend on how many calls came before. *)
Record IssuesService : Type := {
  service_getTransitions : nat → string → Error + GetTransitionsResponse;
  service_transitionIssue : nat → string → TransitionParams → Error + unit;
  service_addComment : nat → string → string → Error + unit;
  service_get : nat → string → list string → Error + Issue
}.

(** [{ content }] of the controller, and the [{ type: 'text', text }] items
    of a tool response. *)
Record ControllerResponse : Type := { content : string }.

Record TextContent : Type := { content_type : string; text : string }.

Record ToolResponse : Type := { tool_content : list TextContent }.

(** A computation over the log of service calls (oldest first). *)
Definition Service (A : Type) : Type :=
  list ServiceCall → outcome A * list ServiceCall.

Definition service_ret {A : Type} (a : A) : Service A :=
  fun log => (Returned a, log).

Definition service_bind {A B : Type} (m : Service A) (k : A → Service B)
  : Service B :=
  fun log =>
    match m log with
    | (Returned a, log') => k a log'
    | (Thrown e, log') => (Thrown e, log')
    end.

Definition service_try {A : Type} (body : Service A)
    (handler : Error → Service A) : Service A :=
  fun log =>
    match body log with
    | (Returned a, log') => (Returned a, log')
    | (Thrown e, log') => handler e log'
    end.

(** [await atlassianIssuesService.method(...)] *)
Definition call {T : Type} (c : ServiceCall) (answer : nat → Error + T)
  : Service T :=
  fun log =>
    match answer (length log) with
    | inl e => (Thrown e, log ++ [c])
    | inr r => (Returned r, log ++ [c])
    end.

(** What the service answers to a call made as call number [n]: nothing
    when it succeeds, the error when it throws. *)
Definition failure (service : IssuesService) (n : nat) (c : ServiceCall)
  : option Error :=
  match c with
  | GetTransitionsCall issue =>
      match service_getTransitions service n issue with
      | inl e => Some e | inr _ => None end
  | TransitionIssueCall issue params =>
      match service_transitionIssue service n issue params with
      | inl e => Some e | inr _ => None end
  | AddCommentCall issue body =>
      match service_addComment service n issue body with
      | inl e => Some e | inr _ => None end
  | GetIssueCall issue wanted =>
      match service_get service n issue wanted with
      | inl e => Some e | inr _ => None end
  end.

Module Controller.

Section WithService.

Variable service : IssuesService.

Definition getTransitions (args : GetTransitionsToolArgs)
  : Service ControllerResponse :=
  service_bind
    (call (GetTransitionsCall (get_issueIdOrKey args))
       (fun n => service_getTransitions service n (get_issueIdOrKey args)))
    (fun response =>
       service_ret
         {| content := formatTransitions response (get_issueIdOrKey args) |}).

Definition transitionParams (args : TransitionIssueToolArgs)
  : TransitionParams :=
  {| transition := transitionId args;
     params_fields := fields args;
     params_update := update args |}.

Definition transitionIssue (args : TransitionIssueToolArgs)
  : Service ControllerResponse :=
  service_bind
    (call (TransitionIssueCall (issueIdOrKey args) (transitionParams args))
       (fun n => service_transitionIssue service n (issueIdOrKey args)
                   (transitionParams args)))
    (fun _ =>
       service_bind
         match present (comment args) with
         | Some body =>
             call (AddCommentCall (issueIdOrKey args) body)
               (fun n => service_addComment service n (issueIdOrKey args)
                           body)
         | None => service_ret tt
         end
         (fun _ =>
            service_bind
              (call (GetIssueCall (issueIdOrKey args) ["status"; "summary"])
                 (fun n => service_get service n (issueIdOrKey args)
                             ["status"; "summary"]))
              (fun updatedIssue =>
                 service_ret
                   {| content :=
                        formatTransitionResult (issueIdOrKey args)
                          (transitionId args) updatedIssue |}))).

End WithService.

End Controller.

Module Tool.

Section WithService.

Variable service : IssuesService.

(** [formatErrorForMcpTool(err).content], of [error.util]. *)
Variable error_content : Error → list TextContent.

Definition text_response (result : ControllerResponse) : ToolResponse :=
  {| tool_content :=
       [{| content_type := "text"; text := content result |}] |}.

Definition getTransitions (args : GetTransitionsToolArgs)
  : Service ToolResponse :=
  service_try
    (service_bind (Controller.getTransitions service args)
       (fun result => service_ret (text_response result)))
    (fun err => service_ret {| tool_content := error_content err |}).

Definition transitionIssue (args : TransitionIssueToolArgs)
  : Service ToolResponse :=
  service_try
    (service_bind (Controller.transitionIssue service args)
       (fun result => service_ret (text_response result)))
    (fun err => service_ret {| tool_content := error_content err |}).

End WithService.

End Tool.

(** The service calls of a complete transition, in order. *)
Definition planned_calls (args : TransitionIssueToolArgs)
  : list ServiceCall :=
  TransitionIssueCall (issueIdOrKey args) (Controller.transitionParams args)
  :: match present (comment args) with
     | Some body => [AddCommentCall (issueIdOrKey args) body]
     | None => []
     end
  ++ [GetIssueCall (issueIdOrKey args) ["status"; "summary"]].

(** A service on which the transition is applied and the comment is then
    refused. *)
Definition service_comment_refused : IssuesService :=
  {| service_getTransitions := fun _ _ => inr {| transitions := None |};
     service_transitionIssue := fun _ _ _ => inr tt;
     service_addComment := fun _ _ _ => inl (HttpError 403 "Forbidden");
     service_get := fun _ _ _ =>
       inr {| issue_id := "10000"; issue_key := "TEST-999";
              issue_fields := {| summary := "Test Issue";
                                 status := None |} |} |}.

Definition args_with_comment : TransitionIssueToolArgs :=
  {| issueIdOrKey := "TEST-999"; transitionId := "21";
     comment := Some "This will fail"; fields := None; update := None |}.

Definition report_error (e : Error) : list TextContent :=
  [{| content_type := "text"; text := "Error" |}].

(* ===================================================================== *)
(** * Facts about the matcher *)
(* ===================================================================== *)

Module RegexFacts.

(** A character of [s] satisfies [p]: a class [q] that excludes [p] does not
    hold all over [s]. *)
Lemma exists_excludes_forall (p q : N → bool) (s : jsstring) :
  (∀ c, p c = true → q c = false) →
  existsb p s = true → forallb q s = false.
Proof.
  intros Hpq. induction s as [|c s IH]; simpl; [discriminate |].
  intros [Hc | Hs]%orb_true_iff.
  - by rewrite (Hpq c Hc).
  - rewrite (IH Hs). apply andb_false_r.
Qed.

Lemma nullable_lang (r : regex) : nullable r = true ↔ lang r [].
Proof.
  split.
  - induction r; simpl; intros H; try discriminate.
    + constructor.
    + apply andb_true_iff in H as [H1 H2].
      change (lang (Cat r1 r2) ([] ++ [])). constructor; auto.
    + apply orb_true_iff in H as [H | H];
        [apply lang_alt_l | apply lang_alt_r]; auto.
    + constructor.
  - intros H. remember [] as s eqn:Hs.
    induction H; simpl; try reflexivity; try discriminate.
    + apply app_eq_nil in Hs as [-> ->].
      by rewrite IHlang1, IHlang2.
    + by rewrite IHlang.
    + rewrite IHlang by assumption. apply orb_true_r.
Qed.

Lemma deriv_sound (c : N) (r : regex) (s : jsstring) :
  lang (deriv c r) s → lang r (c :: s).
Proof.
  revert s. induction r; simpl; intros s H.
  - inversion H.
  - inversion H.
  - destruct (p c) eqn:Hp; inversion H; subst. by constructor.
  - assert (Hcat : ∀ t, lang (Cat (deriv c r1) r2) t →
                        lang (Cat r1 r2) (c :: t)).
    { intros t Ht. inversion Ht; subst.
      change (lang (Cat r1 r2) ((c :: s1) ++ s2)).
      constructor; auto. }
    destruct (nullable r1) eqn:Hn; [| by apply Hcat].
    inversion H; subst; [by apply Hcat |].
    change (lang (Cat r1 r2) ([] ++ c :: s)).
    constructor; [by apply nullable_lang | auto].
  - inversion H; subst; [apply lang_alt_l | apply lang_alt_r]; auto.
  - inversion H; subst.
    change (lang (Star r) ((c :: s1) ++ s2)).
    apply lang_star_cons; auto.
Qed.

Lemma deriv_complete (c : N) (r : regex) (s : jsstring) :
  lang r (c :: s) → lang (deriv c r) s.
Proof.
  intros H. remember (c :: s) as t eqn:Ht. revert s Ht.
  induction H; intros t Ht; simpl.
  - discriminate.
  - injection Ht as -> <-. rewrite H. constructor.
  - destruct s1 as [|c1 s1]; simpl in Ht.
    + subst s2. apply nullable_lang in H. rewrite H.
      apply lang_alt_r. by apply IHlang2.
    + injection Ht as -> <-.
      assert (lang (Cat (deriv c r1) r2) (s1 ++ s2))
        by (constructor; auto).
      destruct (nullable r1); [by apply lang_alt_l | done].
  - apply lang_alt_l. auto.
  - apply lang_alt_r. auto.
  - discriminate.
  - destruct s1 as [|c1 s1]; simpl in Ht.
    + by apply IHlang2.
    + injection Ht as -> <-. constructor; auto.
Qed.

(** The matcher decides the words of a pattern. *)
Lemma matches_lang (r : regex) (s : jsstring) :
  matches r s = true ↔ lang r s.
Proof.
  revert r. induction s as [|c s IH]; intros r; simpl.
  - apply nullable_lang.
  - rewrite IH. split; [apply deriv_sound | apply deriv_complete].
Qed.

Lemma lang_cat_iff (r1 r2 : regex) (s : jsstring) :
  lang (Cat r1 r2) s ↔ ∃ s1 s2, s = s1 ++ s2 ∧ lang r1 s1 ∧ lang r2 s2.
Proof.
  split.
  - intros H. inversion H; subst. eauto.
  - intros (s1 & s2 & -> & H1 & H2). by constructor.
Qed.

Lemma lang_lit_iff (c : ascii) (s : jsstring) :
  lang (Lit c) s ↔ s = [code c].
Proof.
  unfold Lit. split.
  - intros H. inversion H; subst.
    match goal with E : N.eqb _ _ = true |- _ =>
      apply N.eqb_eq in E; by subst end.
  - intros ->. constructor. apply N.eqb_refl.
Qed.

Lemma lang_any_star (s : jsstring) : lang (Star AnyChar) s.
Proof.
  induction s as [|c s IH]; [constructor |].
  change (lang (Star AnyChar) ([c] ++ s)).
  apply lang_star_cons; [by constructor | done].
Qed.

(** [[class]{n}] matches the strings of [n] characters of the class. *)
Lemma lang_repeat_class (p : N → bool) (n : nat) (s : jsstring) :
  lang (Repeat n (Class p)) s ↔ length s = n ∧ forallb p s = true.
Proof.
  revert s. induction n as [|n IH]; intros s; simpl.
  - split.
    + intros H. inversion H. done.
    + intros [Hl _]. destruct s; [constructor | discriminate].
  - rewrite lang_cat_iff. split.
    + intros (s1 & s2 & -> & H1 & H2). inversion H1; subst.
      apply IH in H2 as [<- H2]. simpl.
      split; [reflexivity |].
      match goal with E : p _ = true |- _ => by rewrite E end.
    + intros [Hl Hp]. destruct s as [|c s]; [discriminate |].
      simpl in Hl, Hp. apply andb_true_iff in Hp as [Hc Hp].
      exists [c], s. split; [reflexivity |].
      split; [by constructor |]. apply IH. split; [lia | done].
Qed.

End RegexFacts.

(* ===================================================================== *)
(** * The classifier *)
(* ===================================================================== *)

Import RegexFacts.

(** Comparisons of code units, as arithmetic. *)
Ltac eval_codes :=
  repeat
    match goal with
    | |- context [N_of_ascii ?a] =>
        let v := eval vm_compute in (N_of_ascii a) in
        change (N_of_ascii a) with v
    | H : context [N_of_ascii ?a] |- _ =>
        let v := eval vm_compute in (N_of_ascii a) in
        change (N_of_ascii a) with v in H
    end.

Ltac class_arith :=
  repeat progress
    unfold hex_lower, hex_lower_or_hyphen, hex_upper_letter, hex_or_hyphen,
      is_colon, not_space_or_at, is_space, is_ascii, lower_ascii,
      is_char, in_range, code in *;
  eval_codes;
  repeat
    match goal with
    | H : _ |- _ =>
        progress rewrite ?negb_true_iff, ?negb_false_iff, ?orb_true_iff,
          ?andb_true_iff, ?orb_false_iff, ?andb_false_iff, ?N.leb_le,
          ?N.leb_gt, ?N.ltb_lt, ?N.ltb_ge, ?N.eqb_eq, ?N.eqb_neq in H
    end;
  rewrite ?negb_true_iff, ?negb_false_iff, ?orb_true_iff, ?andb_true_iff,
    ?orb_false_iff, ?andb_false_iff, ?N.leb_le, ?N.leb_gt, ?N.ltb_lt,
    ?N.ltb_ge, ?N.eqb_eq, ?N.eqb_neq;
  try lia.

Lemma upper_not_hex_lower (c : N) :
  hex_upper_letter c = true → hex_lower c = false.
Proof. intros H. class_arith. Qed.

Lemma upper_not_hex_lower_or_hyphen (c : N) :
  hex_upper_letter c = true → hex_lower_or_hyphen c = false.
Proof. intros H. class_arith. Qed.

Lemma colon_not_hex_lower (c : N) :
  is_colon c = true → hex_lower c = false.
Proof. intros H. class_arith. Qed.

Lemma colon_not_hex_or_hyphen : hex_or_hyphen (code ":") = false.
Proof. reflexivity. Qed.

Lemma hex_lower_no_colon (s : jsstring) :
  forallb hex_lower s = true → existsb is_colon s = false.
Proof.
  intros H. destruct (existsb is_colon s) eqn:E; [| reflexivity].
  apply (exists_excludes_forall _ hex_lower) in E;
    [congruence | apply colon_not_hex_lower].
Qed.

(** The part of a string before its first colon is determined. *)
Lemma first_colon_unique (p p' rest rest' : jsstring) :
  existsb is_colon p = false →
  existsb is_colon p' = false →
  p ++ js ":" ++ rest = p' ++ js ":" ++ rest' → p = p'.
Proof.
  change (js ":") with [code ":"].
  revert p'. induction p as [|c p IH]; intros [|c' p'] Hp Hp' E;
    simpl in E.
  - reflexivity.
  - injection E as <- _. simpl in Hp'. discriminate.
  - injection E as -> _. simpl in Hp. discriminate.
  - injection E as -> E. simpl in Hp, Hp'.
    apply orb_false_iff in Hp as [_ Hp].
    apply orb_false_iff in Hp' as [_ Hp'].
    f_equal. eauto.
Qed.

(** [/^[0-9a-f]{6}:/] accepts the strings that begin with six lower-case
    hexadecimal digits and a colon. *)
Lemma accountId_prefix_iff (s : jsstring) :
  test_prefix re_accountId_prefix s = true
  ↔ ∃ p rest, s = p ++ js ":" ++ rest ∧ length p = 6%nat
              ∧ forallb hex_lower p = true.
Proof.
  change (js ":") with [code ":"].
  unfold test_prefix, re_accountId_prefix.
  rewrite matches_lang, lang_cat_iff. split.
  - intros (s1 & rest & -> & H1 & _).
    apply lang_cat_iff in H1 as (p & colon & -> & Hp & Hc).
    apply lang_lit_iff in Hc as ->. apply lang_repeat_class in Hp as [Hl Hp].
    exists p, rest. by rewrite <- app_assoc.
  - intros (p & rest & -> & Hl & Hp).
    exists (p ++ [code ":"]), rest. rewrite <- app_assoc.
    split; [reflexivity |]. split; [| apply lang_any_star].
    constructor; [by apply lang_repeat_class | by apply lang_lit_iff].
Qed.

(** [/^[0-9a-f-]{36}$/] accepts the strings of 36 lower-case hexadecimal
    digits and hyphens. *)
Lemma accountId_uuid_iff (s : jsstring) :
  test_anchored re_accountId_uuid s = true
  ↔ length s = 36%nat ∧ forallb hex_lower_or_hyphen s = true.
Proof.
  unfold test_anchored, re_accountId_uuid.
  rewrite matches_lang. apply lang_repeat_class.
Qed.

Lemma isAccountId_iff (s : jsstring) :
  isAccountId s = true
  ↔ (∃ p rest, s = p ++ js ":" ++ rest ∧ length p = 6%nat
               ∧ forallb hex_lower p = true)
    ∨ (length s = 36%nat ∧ forallb hex_lower_or_hyphen s = true).
Proof.
  unfold isAccountId.
  by rewrite orb_true_iff, accountId_prefix_iff, accountId_uuid_iff.
Qed.

Lemma isAccountId_truthy (s : jsstring) :
  isAccountId s = true → truthy s = true.
Proof. destruct s; [vm_compute; discriminate | reflexivity]. Qed.

Lemma truthy_iff (s : jsstring) : truthy s = true ↔ s ≠ [].
Proof. destruct s; simpl; split; congruence. Qed.

Lemma same_string_iff (s1 s2 : jsstring) :
  same_string s1 s2 = true ↔ s1 = s2.
Proof.
  revert s2. induction s1 as [|c1 s1 IH]; intros [|c2 s2]; simpl;
    try (split; congruence).
  rewrite andb_true_iff, N.eqb_eq, IH. split.
  - by intros [-> ->].
  - by intros [= -> ->].
Qed.

(** ** C2 *)

(** C2, as the claim states it, fails: a prefix of one hexadecimal digit
    followed by a colon is within the claimed range of 1 to 8, and so is a
    prefix of eight digits, yet [isAccountId] rejects both. *)
Lemma isAccountId_rejects_short_and_long_prefix :
  forallb hex_lower (js "5") = true
  ∧ isAccountId (js "5" ++ js ":" ++ js "abc") = false
  ∧ forallb hex_lower (js "12345678") = true
  ∧ isAccountId (js "12345678" ++ js ":" ++ js "x") = false.
Proof. repeat split; vm_compute; reflexivity. Qed.

(** C2 (amended): [isAccountId] returns true for every string that starts
    with exactly six lower-case hexadecimal digits followed by a colon, and
    for every string of exactly 36 lower-case hexadecimal digits and
    hyphens; it returns false for "johndoe", "John Doe" and the empty
    string. *)
Theorem isAccountId_accepted_shapes (s : jsstring) :
  ((∃ p rest, s = p ++ js ":" ++ rest ∧ length p = 6%nat
              ∧ forallb hex_lower p = true)
   ∨ (length s = 36%nat ∧ forallb hex_lower_or_hyphen s = true)
   → isAccountId s = true)
  ∧ isAccountId (js "johndoe") = false
  ∧ isAccountId (js "John Doe") = false
  ∧ isAccountId (js "") = false.
Proof.
  split; [apply isAccountId_iff |].
  repeat split; vm_compute; reflexivity.
Qed.

Lemma isAccountId_accepted_shapes_witness :
  (∃ p rest, js "5bc73a:abcdef12-3456-7890-abcd-ef1234567890"
             = p ++ js ":" ++ rest
             ∧ length p = 6%nat ∧ forallb hex_lower p = true)
  ∧ isAccountId (js "5bc73a:abcdef12-3456-7890-abcd-ef1234567890") = true.
Proof.
  assert (H : ∃ p rest, js "5bc73a:abcdef12-3456-7890-abcd-ef1234567890"
                        = p ++ js ":" ++ rest
                        ∧ length p = 6%nat
                        ∧ forallb hex_lower p = true).
  { exists (js "5bc73a"), (js "abcdef12-3456-7890-abcd-ef1234567890").
    repeat split; reflexivity. }
  split; [exact H |].
  exact (proj1 (isAccountId_accepted_shapes
                  (js "5bc73a:abcdef12-3456-7890-abcd-ef1234567890"))
           (or_introl H)).
Defined.

(* ===================================================================== *)
(** * Case folding *)
(* ===================================================================== *)

(** Lower-casing the letters A-Z identifies exactly the strings that are
    equal up to the case of those letters. *)
Lemma same_letter_iff (a b : N) :
  lower_ascii a = lower_ascii b ↔ same_letter a b = true.
Proof.
  unfold same_letter, lower_ascii, in_range.
  change (code "A") with 65%N. change (code "Z") with 90%N.
  destruct (N.leb_spec 65 a), (N.leb_spec a 90), (N.leb_spec 65 b),
    (N.leb_spec b 90); simpl;
    rewrite ?orb_false_r, ?orb_true_iff, ?N.eqb_eq; lia.
Qed.

Lemma same_letters_iff (s1 s2 : jsstring) :
  map lower_ascii s1 = map lower_ascii s2 ↔ same_letters s1 s2 = true.
Proof.
  revert s2. induction s1 as [|a s1 IH]; intros [|b s2]; simpl;
    try (split; [discriminate | discriminate]); [done |].
  rewrite andb_true_iff, <- same_letter_iff, <- IH.
  split; [by intros [= -> ->] | by intros [-> ->]].
Qed.

Section MatchingFacts.

Context {rt : Runtime}.

(** On strings of ASCII characters, equal lower-case forms mean equal up to
    the case of the letters. *)
Lemma toLowerCase_same_letters (s1 s2 : jsstring) :
  forallb is_ascii s1 = true → forallb is_ascii s2 = true →
  toLowerCase s1 = toLowerCase s2 ↔ same_letters s1 s2 = true.
Proof.
  intros H1 H2. rewrite !toLowerCase_ascii by done.
  apply same_letters_iff.
Qed.

Lemma toLowerCase_truthy (s : jsstring) :
  truthy (toLowerCase s) = truthy s.
Proof.
  destruct s as [|c s].
  - by rewrite toLowerCase_ascii.
  - destruct (toLowerCase (c :: s)) eqn:E; [| done].
    by apply toLowerCase_nil in E.
Qed.

Lemma same_ignoring_case_iff (field : option jsstring) (id : jsstring) :
  same_ignoring_case field id = true
  ↔ ∃ v, field = Some v ∧ toLowerCase v = toLowerCase id.
Proof.
  unfold same_ignoring_case. destruct field as [v|].
  - rewrite same_string_iff. split; [eauto | by intros (? & [= <-] & ?)].
  - split; [discriminate | by intros (? & [=] & _)].
Qed.

End MatchingFacts.

(* ===================================================================== *)
(** * The cache *)
(* ===================================================================== *)

Lemma TTL_one_hour : TTL = 3600000.
Proof. reflexivity. Qed.

Section CacheFacts.

Context {rt : Runtime}.

Lemma UserCache_get_hit (identifier : jsstring) (w : World) (e : CacheEntry) :
  cache w !! toLowerCase identifier = Some e →
  now w - timestamp e < TTL →
  UserCache_get identifier w = (Returned (Some (entry_accountId e)), w).
Proof.
  intros Hl Ht. unfold UserCache_get, bind, cache_lookup, Date_now, ret.
  rewrite Hl. by rewrite (proj2 (Z.ltb_lt _ _) Ht).
Qed.

Lemma UserCache_get_expired (identifier : jsstring) (w : World)
    (e : CacheEntry) :
  cache w !! toLowerCase identifier = Some e →
  TTL ≤ now w - timestamp e →
  UserCache_get identifier w
  = (Returned None,
     {| cache := delete (toLowerCase identifier) (cache w); now := now w;
        fetched := fetched w; invoked := invoked w |}).
Proof.
  intros Hl Ht. unfold UserCache_get, bind, cache_lookup, Date_now, ret.
  rewrite Hl. by rewrite (proj2 (Z.ltb_ge _ _) Ht).
Qed.

Lemma UserCache_get_absent (identifier : jsstring) (w : World) :
  cache w !! toLowerCase identifier = None →
  UserCache_get identifier w = (Returned None, w).
Proof.
  intros Hl. unfold UserCache_get, bind, cache_lookup, ret. by rewrite Hl.
Qed.

(** A read never throws and leaves clock and logs alone; the cache it
    leaves is the one it found, or that one without the key read. *)
Lemma UserCache_get_total (identifier : jsstring) (w : World) :
  ∃ r w', UserCache_get identifier w = (Returned r, w')
          ∧ now w' = now w ∧ fetched w' = fetched w
          ∧ invoked w' = invoked w
          ∧ (cache w' = cache w
             ∨ cache w' = delete (toLowerCase identifier) (cache w)).
Proof.
  destruct (cache w !! toLowerCase identifier) as [e|] eqn:Hl.
  - destruct (Z_lt_ge_dec (now w - timestamp e) TTL) as [Ht | Ht].
    + rewrite (UserCache_get_hit _ _ _ Hl Ht). eauto 10.
    + rewrite (UserCache_get_expired _ _ e Hl) by lia. eauto 10.
  - rewrite (UserCache_get_absent _ _ Hl). eauto 10.
Qed.

(** What a read returns is a valid entry of the cache. *)
Lemma UserCache_get_Some (identifier : jsstring) (w w' : World) (a : jsstring) :
  UserCache_get identifier w = (Returned (Some a), w') →
  w' = w ∧ ∃ ts, cache w !! toLowerCase identifier
                 = Some {| entry_accountId := a; timestamp := ts |}
                 ∧ now w - ts < TTL.
Proof.
  destruct (cache w !! toLowerCase identifier) as [[a' ts]|] eqn:Hl.
  - destruct (Z_lt_ge_dec (now w - ts) TTL) as [Ht | Ht].
    + rewrite (UserCache_get_hit _ _ _ Hl Ht). simpl.
      intros [= -> ->]. eauto.
    + rewrite (UserCache_get_expired _ _ _ Hl) by (simpl; lia).
      discriminate.
  - rewrite (UserCache_get_absent _ _ Hl). discriminate.
Qed.

(** ** C7 *)

(** C7: [UserCache.get] looks the identifier up under its lower-cased
    form, so that identifiers with the same lower-case form are read alike,
    among them the strings of ASCII characters that are equal up to the
    case of their letters.  An entry younger than one hour is returned and
    the world is left as it was; an entry of one hour or more is deleted
    and the read returns absent; without an entry the read returns absent
    and changes nothing. *)
Theorem UserCache_get_contract (identifier : jsstring) (w : World) :
  TTL = 3600000
  ∧ (∀ other, toLowerCase other = toLowerCase identifier →
              UserCache_get other w = UserCache_get identifier w)
  ∧ (∀ e, cache w !! toLowerCase identifier = Some e →
          now w - timestamp e < TTL →
          UserCache_get identifier w
          = (Returned (Some (entry_accountId e)), w))
  ∧ (∀ e, cache w !! toLowerCase identifier = Some e →
          TTL ≤ now w - timestamp e →
          fst (UserCache_get identifier w) = Returned None
          ∧ cache (snd (UserCache_get identifier w))
            = delete (toLowerCase identifier) (cache w)
          ∧ cache (snd (UserCache_get identifier w))
              !! toLowerCase identifier = None)
  ∧ (cache w !! toLowerCase identifier = None →
     UserCache_get identifier w = (Returned None, w))
  ∧ (∀ other, forallb is_ascii other = true →
              forallb is_ascii identifier = true →
              same_letters other identifier = true →
              UserCache_get other w = UserCache_get identifier w).
Proof.
  split; [reflexivity |]. split; [| split; [| split; [| split]]].
  - intros other E. unfold UserCache_get. by rewrite E.
  - apply UserCache_get_hit.
  - intros e Hl Ht. rewrite (UserCache_get_expired _ _ e Hl) by lia.
    simpl. split; [reflexivity |]. split; [reflexivity |].
    apply lookup_delete_eq.
  - apply UserCache_get_absent.
  - intros other Ho Hi Hsame. unfold UserCache_get.
    by rewrite (proj2 (toLowerCase_same_letters other identifier Ho Hi)
                  Hsame).
Qed.

End CacheFacts.

(** An entry written at time 0 under "john@example.com" is read back under
    "John@Example.com" one millisecond before the hour and purged at the
    hour. *)
Lemma UserCache_get_contract_witness :
  fst (UserCache_get (rt := ascii_runtime) (js "John@Example.com")
         (world_with_entry "john@example.com" "557058:john" 3599999))
  = Returned (Some (js "557058:john"))
  ∧ cache (snd (UserCache_get (rt := ascii_runtime)
                  (js "John@Example.com")
                  (world_with_entry "john@example.com" "557058:john"
                     3600000)))
      !! js "john@example.com" = None.
Proof.
  split.
  - rewrite (proj1 (proj2 (proj2 (UserCache_get_contract (rt := ascii_runtime)
       (js "John@Example.com")
       (world_with_entry "john@example.com" "557058:john" 3599999))))
       {| entry_accountId := js "557058:john"; timestamp := 0 |});
      [reflexivity | reflexivity | reflexivity].
  - apply (proj1 (proj2 (proj2 (proj2 (UserCache_get_contract
       (rt := ascii_runtime)
       (js "John@Example.com")
       (world_with_entry "john@example.com" "557058:john" 3600000)))))
       {| entry_accountId := js "557058:john"; timestamp := 0 |});
      [reflexivity | vm_compute; discriminate].
Defined.

(* ===================================================================== *)
(** * The search strategies *)
(* ===================================================================== *)

Section StrategyFacts.

Variable env : Transport.

(** Both strategies always return, whatever the transport does: the
    [catch] clause turns every exception of the body into null. *)
Lemma searchUsersWithPicker_run (query : jsstring) (w : World) :
  searchUsersWithPicker env query w
  = (Returned
       match exchange env (fetch_picker env) (path_of Picker query) w with
       | Answered response => picker_users response
       | _ => None
       end,
     after_call env Picker query w).
Proof.
  unfold searchUsersWithPicker, try_catch, bind, note_invoked,
    require_credentials, encode_query, fetchAtlassian, exchange,
    after_call, path_of, ret, throw.
  simpl. destruct (getAtlassianCredentials env) as [c|]; [| reflexivity].
  simpl. destruct (encodeURIComponent query) as [encoded|]; [| reflexivity].
  simpl. by destruct (fetch_picker env _ c _).
Qed.

Lemma searchUsers_run (query : jsstring) (w : World) :
  searchUsers env query w
  = (Returned
       match exchange env (fetch_users env) (path_of Directory query) w with
       | Answered response => Some response
       | _ => None
       end,
     after_call env Directory query w).
Proof.
  unfold searchUsers, try_catch, bind, note_invoked,
    require_credentials, encode_query, fetchAtlassian, exchange,
    after_call, path_of, ret, throw.
  simpl. destruct (getAtlassianCredentials env) as [c|]; [| reflexivity].
  simpl. destruct (encodeURIComponent query) as [encoded|]; [| reflexivity].
  simpl. by destruct (fetch_users env _ c _).
Qed.

Lemma after_call_cache (s : Strategy) (q : jsstring) (w : World) :
  cache (after_call env s q w) = cache w.
Proof.
  unfold after_call.
  by destruct (getAtlassianCredentials env), (path_of s q).
Qed.

Lemma after_call_invoked (s : Strategy) (q : jsstring) (w : World) :
  invoked (after_call env s q w) = invoked w ++ [(s, q)].
Proof.
  unfold after_call.
  by destruct (getAtlassianCredentials env), (path_of s q).
Qed.

Lemma after_call_fetched (s : Strategy) (q : jsstring) (w : World) :
  fetched (after_call env s q w)
  = fetched w ++ match getAtlassianCredentials env with
                 | Some _ => option_list (path_of s q)
                 | None => []
                 end.
Proof.
  unfold after_call.
  destruct (getAtlassianCredentials env), (path_of s q); simpl;
    by rewrite ?app_nil_r.
Qed.

Lemma after_call_no_credentials (s : Strategy) (q : jsstring) (w : World) :
  getAtlassianCredentials env = None →
  after_call env s q w
  = {| cache := cache w; now := now w; fetched := fetched w;
       invoked := invoked w ++ [(s, q)] |}.
Proof. intros H. unfold after_call. by rewrite H. Qed.

Lemma exchange_no_credentials {T : Type}
    (endpoint : nat → Credentials → jsstring → Error + T)
    (path : option jsstring) (w : World) :
  getAtlassianCredentials env = None →
  exchange env endpoint path w = NoCredentials.
Proof. intros H. unfold exchange. by rewrite H. Qed.

(** An answer means a request was sent: there are credentials and the
    query could be encoded. *)
Lemma exchange_answered {T : Type}
    (endpoint : nat → Credentials → jsstring → Error + T)
    (path : option jsstring) (w : World) (response : T) :
  exchange env endpoint path w = Answered response →
  is_Some (getAtlassianCredentials env) ∧ is_Some path.
Proof.
  unfold exchange.
  destruct (getAtlassianCredentials env), path; try discriminate.
  eauto.
Qed.

End StrategyFacts.

(** ** C4 *)

(** C4, as the claim states it, fails for the picker strategy: the
    transport answers successfully with a response that carries no [users]
    section, and the strategy returns null, not a list. *)
Lemma picker_null_on_successful_response :
  exchange env_picker_no_section (fetch_picker env_picker_no_section)
    (path_of Picker (js "john")) empty_world
  = Answered {| users := None; groups := None |}
  ∧ fst (searchUsersWithPicker env_picker_no_section
           (js "john") empty_world)
    = Returned None.
Proof. split; reflexivity. Qed.

(** C4 (amended): each strategy always returns.  [searchUsers] returns null
    exactly when no request gets an answer: the credentials are missing,
    the query cannot be encoded ([encodeURIComponent] throws on a lone
    surrogate; no request is sent then), or the transport failed; it
    returns the response list (possibly empty) on every successful
    response.  [searchUsersWithPicker] returns null in the same three cases
    and also when a successful response has no [users] section; on a
    successful response with a [users] section it returns that section's
    list (possibly empty). *)
Theorem strategy_null_contract (env : Transport)
    (query : jsstring) (w : World) :
  (∃ r, fst (searchUsers env query w) = Returned r
        ∧ (r = None
           ↔ exchange env (fetch_users env) (path_of Directory query) w
             = NoCredentials
             ∨ exchange env (fetch_users env) (path_of Directory query) w
               = NotEncodable
             ∨ ∃ e, exchange env (fetch_users env)
                      (path_of Directory query) w
                    = Failed e)
        ∧ (∀ response,
             exchange env (fetch_users env) (path_of Directory query) w
             = Answered response → r = Some response))
  ∧ (∃ r, fst (searchUsersWithPicker env query w) = Returned r
          ∧ (r = None
             ↔ exchange env (fetch_picker env) (path_of Picker query) w
               = NoCredentials
               ∨ exchange env (fetch_picker env) (path_of Picker query) w
                 = NotEncodable
               ∨ (∃ e, exchange env (fetch_picker env)
                         (path_of Picker query) w
                       = Failed e)
               ∨ (∃ response,
                    exchange env (fetch_picker env) (path_of Picker query) w
                    = Answered response ∧ users response = None))
          ∧ (∀ response section,
               exchange env (fetch_picker env) (path_of Picker query) w
               = Answered response →
               users response = Some section →
               r = Some (users_found section)))
  ∧ (exchange env (fetch_users env) (path_of Directory query) w
     = NotEncodable
     ↔ is_Some (getAtlassianCredentials env)
       ∧ encodeURIComponent query = None)
  ∧ (encodeURIComponent query = None →
     fetched (snd (searchUsers env query w)) = fetched w
     ∧ fetched (snd (searchUsersWithPicker env query w)) = fetched w).
Proof.
  split; [| split; [| split]].
  - rewrite searchUsers_run. cbn [fst]. eexists. split; [reflexivity |].
    destruct (exchange env (fetch_users env) (path_of Directory query) w)
      as [| | e | response].
    + split; [split; [intros _; by left | done] | discriminate].
    + split; [split; [intros _; right; by left | done] | discriminate].
    + split; [split; [intros _; right; right; by exists e | done]
             | discriminate].
    + split; [split; [discriminate |] | by intros r' [= <-]].
      intros [H | [H | [e H]]]; discriminate.
  - rewrite searchUsersWithPicker_run. cbn [fst].
    eexists. split; [reflexivity |].
    destruct (exchange env (fetch_picker env) (path_of Picker query) w)
      as [| | e | response].
    + split; [split; [intros _; by left | done] | discriminate].
    + split; [split; [intros _; right; by left | done] | discriminate].
    + split; [split; [intros _; right; right; left; by exists e | done]
             | discriminate].
    + unfold picker_users. split; [split |].
      * destruct (users response) eqn:E; [discriminate |].
        intros _. right. right. right. by exists response.
      * intros [H | [H | [[e H] | [r' [[= <-] E]]]]]; try discriminate.
        by rewrite E.
      * intros r' section [= <-] E. by rewrite E.
  - unfold exchange, path_of.
    destruct (getAtlassianCredentials env) as [c|],
      (encodeURIComponent query) as [encoded|]; simpl.
    + split; [| intros [_ [=]]].
      by destruct (fetch_users env _ c _).
    + split; eauto.
    + split; [discriminate | intros [[? [=]] _]].
    + split; [discriminate | intros [[? [=]] _]].
  - intros Hq. rewrite searchUsers_run, searchUsersWithPicker_run. simpl.
    rewrite !after_call_fetched. unfold path_of. rewrite Hq. simpl.
    destruct (getAtlassianCredentials env); by rewrite app_nil_r.
Qed.

(** A refused directory search returns null; an empty picker answer is
    returned as an empty list; a lone surrogate cannot be encoded, so the
    search returns null without a request. *)
Lemma strategy_null_contract_witness :
  fst (searchUsers env_directory_refused
         (js "John Doe") empty_world)
  = Returned None
  ∧ fst (searchUsersWithPicker env_nobody
           (js "John Doe") empty_world)
    = Returned (Some [])
  ∧ fetched (snd (searchUsers env_nobody
                    lone_surrogate empty_world)) = [].
Proof.
  split; [| split].
  - destruct (proj1 (strategy_null_contract
                       env_directory_refused (js "John Doe") empty_world))
      as (r & Hr & Hnone & _).
    rewrite Hr. f_equal. apply Hnone. right. right.
    exists (HttpError 403 "Forbidden"). reflexivity.
  - destruct (proj1 (proj2 (strategy_null_contract
                       env_nobody (js "John Doe") empty_world)))
      as (r & Hr & _ & Hsome).
    rewrite Hr. f_equal.
    apply (Hsome (picker_answer [])
             {| users_found := []; users_total := 0 |});
      reflexivity.
  - apply (proj2 (proj2 (proj2 (strategy_null_contract
             env_nobody lone_surrogate empty_world)))).
    reflexivity.
Defined.

(* ===================================================================== *)
(** * The resolver *)
(* ===================================================================== *)

Lemma bind_run {A B : Type} (m : M A) (k : A → M B) (w w' : World) (a : A) :
  m w = (Returned a, w') → bind m k w = k a w'.
Proof. intros H. unfold bind. by rewrite H. Qed.

Lemma ret_run {A : Type} (a : A) (w : World) : ret a w = (Returned a, w).
Proof. reflexivity. Qed.

(** Split on the test [!users || users.length === 0] that guards the next
    attempt of the chain. *)
Ltac case_no_results H :=
  match goal with
  | |- context [bind (if no_results ?r then _ else _)] =>
      destruct (no_results r) eqn:H
  end.

Section ResolverFacts.

Context {rt : Runtime}.

Variable env : Transport.

Lemma yields_nothing_picker (q : jsstring) (w : World) :
  yields_nothing (searchUsersWithPicker env q) w
  = no_results
      match exchange env (fetch_picker env) (path_of Picker q) w with
      | Answered response => picker_users response
      | _ => None
      end.
Proof. unfold yields_nothing. by rewrite searchUsersWithPicker_run. Qed.

Lemma yields_nothing_directory (q : jsstring) (w : World) :
  yields_nothing (searchUsers env q) w
  = no_results
      match exchange env (fetch_users env) (path_of Directory q) w with
      | Answered response => Some response
      | _ => None
      end.
Proof. unfold yields_nothing. by rewrite searchUsers_run. Qed.

(** The five ways through the chain: picker; picker, directory; picker,
    directory, picker; directory; directory, picker.  The chain returns what
    its last call returns. *)
Lemma search_chain_cases (id : jsstring) (w : World) :
  (isEmail id = true
   ∧ yields_nothing (searchUsersWithPicker env id) w = false
   ∧ search_chain env id w = searchUsersWithPicker env id w)
  ∨ (isEmail id = true
     ∧ yields_nothing (searchUsersWithPicker env id) w = true
     ∧ yields_nothing (searchUsers env id) (after_call env Picker id w)
       = false
     ∧ search_chain env id w
       = searchUsers env id (after_call env Picker id w))
  ∨ (isEmail id = true
     ∧ yields_nothing (searchUsersWithPicker env id) w = true
     ∧ yields_nothing (searchUsers env id) (after_call env Picker id w)
       = true
     ∧ search_chain env id w
       = searchUsersWithPicker env id
           (after_call env Directory id (after_call env Picker id w)))
  ∨ (isEmail id = false
     ∧ yields_nothing (searchUsers env id) w = false
     ∧ search_chain env id w = searchUsers env id w)
  ∨ (isEmail id = false
     ∧ yields_nothing (searchUsers env id) w = true
     ∧ search_chain env id w
       = searchUsersWithPicker env id (after_call env Directory id w)).
Proof.
  rewrite yields_nothing_picker, !yields_nothing_directory.
  unfold search_chain.
  destruct (isEmail id) eqn:Hemail.
  - rewrite (bind_run _ _ _ _ _ (searchUsersWithPicker_run env id w)).
    case_no_results H1.
    + rewrite (bind_run _ _ _ _ _ (searchUsers_run env id _)).
      case_no_results H2.
      * right; right; left. repeat split; try reflexivity.
        rewrite (bind_run _ _ _ _ _ (searchUsersWithPicker_run env id _)).
        by rewrite searchUsersWithPicker_run.
      * right; left. repeat split; try reflexivity.
        rewrite (bind_run _ _ _ _ _ (ret_run _ _)).
        by rewrite searchUsers_run.
    + left. repeat split; try reflexivity.
      rewrite (bind_run _ _ _ _ _ (ret_run _ _)). cbn beta. rewrite H1.
      rewrite (bind_run _ _ _ _ _ (ret_run _ _)).
      by rewrite searchUsersWithPicker_run.
  - right; right; right.
    rewrite (bind_run _ _ _ _ _ (ret_run _ _)). cbn [no_results].
    rewrite (bind_run _ _ _ _ _ (searchUsers_run env id _)).
    case_no_results H2.
    + right. repeat split; try reflexivity.
      rewrite (bind_run _ _ _ _ _ (searchUsersWithPicker_run env id _)).
      by rewrite searchUsersWithPicker_run.
    + left. repeat split; try reflexivity.
      rewrite (bind_run _ _ _ _ _ (ret_run _ _)).
      by rewrite searchUsers_run.
Qed.

Lemma settle_nothing (id : jsstring) (users : option (list User))
    (w : World) :
  no_results users = true → settle id users w = (Returned None, w).
Proof. intros H. unfold settle. by rewrite H. Qed.

Lemma select_user_nonempty (id : jsstring) (u0 : User) (us : list User) :
  ∃ u, select_user id (u0 :: us) = Some u ∧ u ∈ u0 :: us.
Proof.
  unfold select_user.
  destruct (find (exact_match id) (u0 :: us)) as [u|] eqn:E.
  - exists u. split; [reflexivity |].
    apply find_some in E as [Hin _]. by apply list_elem_of_In.
  - exists u0. split; [reflexivity | left].
Qed.

(** With candidates, the chosen record decides: its account id is cached
    under the lower-cased identifier and returned, unless it is empty. *)
Lemma settle_candidates (id : jsstring) (us : list User) (u : User)
    (w : World) :
  us ≠ [] → select_user id us = Some u →
  settle id (Some us) w
  = if truthy (accountId u)
    then (Returned (Some (accountId u)),
          {| cache := <[toLowerCase id :=
                          {| entry_accountId := accountId u;
                             timestamp := now w |}]> (cache w);
             now := now w; fetched := fetched w; invoked := invoked w |})
    else (Returned None, w).
Proof.
  intros Hne Hsel. destruct us as [|u0 us]; [done |].
  change (settle id (Some (u0 :: us)) w)
    with (match select_user id (u0 :: us) with
          | Some user =>
              if truthy (accountId user)
              then (UserCache_set id (accountId user) ;;;
                    ret (Some (accountId user)))
              else ret None
          | None => ret None
          end w).
  rewrite Hsel. by destruct (truthy (accountId u)).
Qed.

Lemma resolve_empty (id : jsstring) (w : World) :
  truthy id = false → resolveUserIdentifier env id w = (Returned None, w).
Proof. intros H. unfold resolveUserIdentifier. by rewrite H. Qed.

Lemma resolve_canonical (id : jsstring) (w : World) :
  isAccountId id = true →
  resolveUserIdentifier env id w = (Returned (Some id), w).
Proof.
  intros H. unfold resolveUserIdentifier.
  by rewrite (isAccountId_truthy _ H), H.
Qed.

Lemma resolve_other (id : jsstring) (w : World) :
  truthy id = true → isAccountId id = false →
  resolveUserIdentifier env id w = resolve_by_cache_and_search env id w.
Proof. intros H1 H2. unfold resolveUserIdentifier. by rewrite H1, H2. Qed.

(** After a miss the search runs in the world the cache read left. *)
Lemma resolve_after_miss (id : jsstring) (w : World) :
  cache_miss id w = true →
  resolve_by_cache_and_search env id w
  = resolve_by_search env id (snd (UserCache_get id w)).
Proof.
  unfold cache_miss, resolve_by_cache_and_search, bind.
  destruct (UserCache_get_total id w) as (r & w' & E & _). rewrite E.
  simpl. destruct r as [found|]; [| reflexivity].
  intros H. apply negb_true_iff in H. by rewrite H.
Qed.

(** A hit returns the cached id and leaves the world as it was. *)
Lemma resolve_after_hit (id : jsstring) (w : World) :
  cache_miss id w = false →
  ∃ a ts, resolve_by_cache_and_search env id w = (Returned (Some a), w)
          ∧ truthy a = true
          ∧ cache w !! toLowerCase id
            = Some {| entry_accountId := a; timestamp := ts |}
          ∧ now w - ts < TTL.
Proof.
  unfold cache_miss, resolve_by_cache_and_search, bind.
  destruct (UserCache_get id w) as [[[a|]|e] w'] eqn:E; simpl;
    try discriminate.
  intros H. apply negb_false_iff in H. rewrite H.
  apply UserCache_get_Some in E as (-> & ts & Hl & Ht).
  exists a, ts. auto.
Qed.

Lemma resolve_by_search_run (id : jsstring) (w : World) :
  ∃ users w', search_chain env id w = (Returned users, w')
              ∧ resolve_by_search env id w = settle id users w'.
Proof.
  unfold resolve_by_search, bind.
  destruct (search_chain_cases id w)
    as [(_ & _ & E) | [(_ & _ & _ & E) | [(_ & _ & _ & E)
       | [(_ & _ & E) | (_ & _ & E)]]]];
    rewrite E, ?searchUsersWithPicker_run, ?searchUsers_run; eauto.
Qed.

End ResolverFacts.

Section ResolutionFacts.

Context {rt : Runtime}.

Variable env : Transport.

(** The strategy calls of the chain, in order. *)
Lemma search_chain_invoked (id : jsstring) (w : World) :
  invoked (snd (search_chain env id w))
  = invoked w
    ++ (if isEmail id then [(Picker, id)] else [])
    ++ (if (if isEmail id
            then yields_nothing (searchUsersWithPicker env id) w
            else true)
        then (Directory, id)
             :: (if yields_nothing (searchUsers env id)
                      (if isEmail id then after_call env Picker id w else w)
                 then [(Picker, id)]
                 else [])
        else []).
Proof.
  destruct (search_chain_cases env id w)
    as [(-> & -> & ->) | [(-> & -> & -> & ->) | [(-> & -> & -> & ->)
       | [(-> & -> & ->) | (-> & -> & ->)]]]];
    rewrite ?searchUsersWithPicker_run, ?searchUsers_run; simpl;
    rewrite !after_call_invoked, <- ?app_assoc; reflexivity.
Qed.

(** The requests of the chain: one for each strategy call when there are
    credentials and the identifier can be encoded, none at all otherwise. *)
Lemma search_chain_fetched (id : jsstring) (w : World) :
  ∃ sent, fetched (snd (search_chain env id w)) = fetched w ++ sent
          ∧ (length sent ≤ 3)%nat
          ∧ (getAtlassianCredentials env = None → sent = [])
          ∧ (encodeURIComponent id = None → sent = [])
          ∧ (is_Some (getAtlassianCredentials env) →
             is_Some (encodeURIComponent id) → (1 ≤ length sent)%nat).
Proof.
  destruct (search_chain_cases env id w)
    as [(_ & _ & ->) | [(_ & _ & _ & ->) | [(_ & _ & _ & ->)
       | [(_ & _ & ->) | (_ & _ & ->)]]]];
    rewrite ?searchUsersWithPicker_run, ?searchUsers_run; cbn [snd];
    rewrite !after_call_fetched, <- ?app_assoc;
    (eexists; split; [reflexivity |]);
    unfold path_of;
    destruct (getAtlassianCredentials env),
      (encodeURIComponent id); simpl;
    repeat split; try lia; try done;
    try (intros [? [=]]); try (intros _ [? [=]]).
Qed.

(** A chain that ends with candidates got an answer: there are credentials
    and the identifier can be encoded. *)
Lemma search_chain_candidates (id : jsstring) (w : World)
    (users : option (list User)) :
  fst (search_chain env id w) = Returned users →
  no_results users = false →
  is_Some (getAtlassianCredentials env)
  ∧ is_Some (encodeURIComponent id).
Proof.
  assert (Hpath : ∀ s, is_Some (path_of s id) →
                       is_Some (encodeURIComponent id)).
  { intros s. unfold path_of.
    destruct s, (encodeURIComponent id); simpl; eauto;
      intros [? [=]]. }
  assert (Hany : ∀ {T : Type} endpoint s v (f : T → option (list User)),
            no_results
              match exchange env endpoint (path_of s id) v with
              | Answered response => f response
              | _ => None
              end = false →
            is_Some (getAtlassianCredentials env)
            ∧ is_Some (encodeURIComponent id)).
  { intros T endpoint s v f.
    destruct (exchange env endpoint (path_of s id) v) eqn:E;
      try discriminate.
    intros _. apply exchange_answered in E as [? ?]. eauto. }
  destruct (search_chain_cases env id w)
    as [(_ & _ & ->) | [(_ & _ & _ & ->) | [(_ & _ & _ & ->)
       | [(_ & _ & ->) | (_ & _ & ->)]]]];
    rewrite ?searchUsersWithPicker_run, ?searchUsers_run; cbn [fst];
    intros [= <-];
    first [apply (Hany _ _ Picker _ picker_users)
          | apply (Hany _ _ Directory _ Some)].
Qed.

Lemma search_chain_cache (id : jsstring) (w : World) :
  cache (snd (search_chain env id w)) = cache w.
Proof.
  destruct (search_chain_cases env id w)
    as [(_ & _ & ->) | [(_ & _ & _ & ->) | [(_ & _ & _ & ->)
       | [(_ & _ & ->) | (_ & _ & ->)]]]];
    rewrite ?searchUsersWithPicker_run, ?searchUsers_run; simpl;
    by rewrite !after_call_cache.
Qed.

(** Without credentials the chain ends with null. *)
Lemma search_chain_no_credentials (id : jsstring) (w : World) :
  getAtlassianCredentials env = None →
  fst (search_chain env id w) = Returned None.
Proof.
  intros H.
  destruct (search_chain_cases env id w)
    as [(_ & _ & ->) | [(_ & _ & _ & ->) | [(_ & _ & _ & ->)
       | [(_ & _ & ->) | (_ & _ & ->)]]]];
    rewrite ?searchUsersWithPicker_run, ?searchUsers_run; simpl;
    by rewrite exchange_no_credentials.
Qed.

(** When no strategy call brings a candidate, neither does the chain. *)
Lemma search_chain_nothing (id : jsstring) (w : World) :
  (∀ q v, yields_nothing (searchUsersWithPicker env q) v = true
          ∧ yields_nothing (searchUsers env q) v = true) →
  ∃ users, fst (search_chain env id w) = Returned users
           ∧ no_results users = true.
Proof.
  intros H.
  destruct (search_chain_cases env id w)
    as [(_ & _ & ->) | [(_ & _ & _ & ->) | [(_ & _ & _ & ->)
       | [(_ & _ & ->) | (_ & _ & ->)]]]];
    match goal with
    | |- context [searchUsersWithPicker env id ?v] =>
        pose proof (proj1 (H id v)) as Hn;
        rewrite yields_nothing_picker in Hn;
        rewrite searchUsersWithPicker_run
    | |- context [searchUsers env id ?v] =>
        pose proof (proj2 (H id v)) as Hn;
        rewrite yields_nothing_directory in Hn;
        rewrite searchUsers_run
    end; simpl; eauto.
Qed.

(** Settling leaves clock and logs alone. *)
Lemma settle_world (id : jsstring) (users : option (list User)) (w : World) :
  now (snd (settle id users w)) = now w
  ∧ fetched (snd (settle id users w)) = fetched w
  ∧ invoked (snd (settle id users w)) = invoked w.
Proof.
  destruct users as [[|u0 us]|]; try (by rewrite settle_nothing).
  destruct (select_user_nonempty id u0 us) as (u & Hsel & _).
  rewrite (settle_candidates id _ u w) by done.
  by destruct (truthy (accountId u)).
Qed.

(** The four ways through [resolveUserIdentifier]. *)
Lemma resolve_cases (id : jsstring) (w : World) :
  (truthy id = false ∧ resolveUserIdentifier env id w = (Returned None, w))
  ∨ (isAccountId id = true
     ∧ resolveUserIdentifier env id w = (Returned (Some id), w))
  ∨ (truthy id = true ∧ isAccountId id = false ∧ cache_miss id w = false
     ∧ ∃ a ts, resolveUserIdentifier env id w = (Returned (Some a), w)
               ∧ truthy a = true
               ∧ cache w !! toLowerCase id
                 = Some {| entry_accountId := a; timestamp := ts |}
               ∧ now w - ts < TTL)
  ∨ (truthy id = true ∧ isAccountId id = false ∧ cache_miss id w = true
     ∧ resolveUserIdentifier env id w
       = resolve_by_search env id (snd (UserCache_get id w))).
Proof.
  destruct (truthy id) eqn:Ht; [| left; by rewrite resolve_empty].
  destruct (isAccountId id) eqn:Hc;
    [right; left; by rewrite resolve_canonical |].
  rewrite (resolve_other env id w Ht Hc).
  destruct (cache_miss id w) eqn:Hm.
  - right; right; right. by rewrite resolve_after_miss.
  - right; right; left. repeat split; try done.
    destruct (resolve_after_hit env id w Hm) as (a & ts & ? & ? & ? & ?).
    eauto 8.
Qed.

Lemma invoked_by_unchanged {A : Type} (m : M A) (w : World) :
  invoked (snd (m w)) = invoked w → invoked_by m w = [].
Proof. intros H. unfold invoked_by. rewrite H. apply drop_all. Qed.

Lemma fetched_by_unchanged {A : Type} (m : M A) (w : World) :
  fetched (snd (m w)) = fetched w → fetched_by m w = [].
Proof. intros H. unfold fetched_by. rewrite H. apply drop_all. Qed.

End ResolutionFacts.

Section Claims.

Context {rt : Runtime}.

Variable env : Transport.

Lemma resolve_by_search_world (id : jsstring) (w : World) :
  now (snd (resolve_by_search env id w)) = now (snd (search_chain env id w))
  ∧ fetched (snd (resolve_by_search env id w))
    = fetched (snd (search_chain env id w))
  ∧ invoked (snd (resolve_by_search env id w))
    = invoked (snd (search_chain env id w)).
Proof.
  destruct (resolve_by_search_run env id w) as (users & w' & E & ->).
  rewrite E. apply settle_world.
Qed.

(** The strategy calls of a resolution that misses the cache. *)
Lemma resolve_invoked_by_miss (id : jsstring) (w : World) :
  truthy id = true → isAccountId id = false → cache_miss id w = true →
  invoked_by (resolveUserIdentifier env id) w
  = (if isEmail id then [(Picker, id)] else [])
    ++ (if (if isEmail id
            then yields_nothing (searchUsersWithPicker env id)
                   (snd (UserCache_get id w))
            else true)
        then (Directory, id)
             :: (if yields_nothing (searchUsers env id)
                      (if isEmail id
                       then snd (searchUsersWithPicker env id
                                   (snd (UserCache_get id w)))
                       else snd (UserCache_get id w))
                 then [(Picker, id)]
                 else [])
        else []).
Proof.
  intros Ht Hc Hm. unfold invoked_by.
  rewrite (resolve_other env id w Ht Hc), (resolve_after_miss env id w Hm).
  destruct (resolve_by_search_world id (snd (UserCache_get id w)))
    as (_ & _ & ->).
  rewrite search_chain_invoked, searchUsersWithPicker_run.
  destruct (UserCache_get_total id w) as (r & w0 & E & _ & _ & Hi & _).
  rewrite E. simpl. rewrite Hi. apply drop_app_length.
Qed.

(** The requests of a resolution that misses the cache. *)
Lemma resolve_fetched_by_miss (id : jsstring) (w : World) :
  truthy id = true → isAccountId id = false → cache_miss id w = true →
  (length (fetched_by (resolveUserIdentifier env id) w) ≤ 3)%nat
  ∧ (getAtlassianCredentials env = None →
     fetched_by (resolveUserIdentifier env id) w = [])
  ∧ (encodeURIComponent id = None →
     fetched_by (resolveUserIdentifier env id) w = [])
  ∧ (is_Some (getAtlassianCredentials env) →
     is_Some (encodeURIComponent id) →
     (1 ≤ length (fetched_by (resolveUserIdentifier env id) w))%nat).
Proof.
  intros Ht Hc Hm. unfold fetched_by.
  rewrite (resolve_other env id w Ht Hc), (resolve_after_miss env id w Hm).
  destruct (resolve_by_search_world id (snd (UserCache_get id w)))
    as (_ & -> & _).
  destruct (search_chain_fetched env id (snd (UserCache_get id w)))
    as (sent & -> & Hlen & Hnone & Hbad & Hsome).
  destruct (UserCache_get_total id w) as (r & w0 & E & _ & Hf & _).
  rewrite E. simpl. by rewrite Hf, drop_app_length.
Qed.

(** A resolution that misses the cache and still returns an account id got
    an answer from the transport: there are credentials and the
    identifier can be encoded. *)
Lemma resolve_found_by_miss (id a : jsstring) (w : World) :
  truthy id = true → isAccountId id = false → cache_miss id w = true →
  fst (resolveUserIdentifier env id w) = Returned (Some a) →
  is_Some (getAtlassianCredentials env)
  ∧ is_Some (encodeURIComponent id).
Proof.
  intros Ht Hc Hm.
  rewrite (resolve_other env id w Ht Hc), (resolve_after_miss env id w Hm).
  destruct (resolve_by_search_run env id (snd (UserCache_get id w)))
    as (users & w' & E & ->).
  destruct (no_results users) eqn:Hn.
  - by rewrite settle_nothing.
  - intros _.
    apply (search_chain_candidates env id (snd (UserCache_get id w)) users);
      [by rewrite E | done].
Qed.

(** Outside a miss, a resolution leaves the world as it found it. *)
Lemma resolve_without_search (id : jsstring) (w : World) :
  truthy id = false ∨ isAccountId id = true ∨ cache_miss id w = false →
  snd (resolveUserIdentifier env id w) = w.
Proof.
  intros H.
  destruct (resolve_cases env id w)
    as [(_ & ->) | [(_ & ->) | [(_ & _ & _ & a & ts & -> & _)
       | (Ht & Hc & Hm & _)]]]; try reflexivity.
  destruct H as [H | [H | H]]; congruence.
Qed.

(** Without credentials a resolution that misses the cache ends with
    absent. *)
Lemma resolve_absent_without_credentials (id : jsstring) (w : World) :
  getAtlassianCredentials env = None →
  truthy id = true → isAccountId id = false → cache_miss id w = true →
  fst (resolveUserIdentifier env id w) = Returned None.
Proof.
  intros Hcred Ht Hc Hm.
  rewrite (resolve_other env id w Ht Hc), (resolve_after_miss env id w Hm).
  destruct (resolve_by_search_run env id (snd (UserCache_get id w)))
    as (users & w' & E & ->).
  pose proof (search_chain_no_credentials env id
                (snd (UserCache_get id w)) Hcred) as Hn.
  rewrite E in Hn. simpl in Hn. injection Hn as ->.
  by rewrite settle_nothing.
Qed.

(** ** C1 *)

(** C1, as the claim states it, fails: without credentials the guard raises
    the auth-missing error inside the strategy, the strategy's own [catch]
    turns it into null, and the resolution of "johndoe" (not empty, not
    canonical, not cached; two strategy calls are made) returns absent as
    an ordinary value. *)
Lemma auth_missing_is_swallowed :
  getAtlassianCredentials env_no_credentials = None
  ∧ truthy (js "johndoe") = true
  ∧ isAccountId (js "johndoe") = false
  ∧ fst (require_credentials env_no_credentials empty_world)
    = Thrown (AuthMissing "user search")
  ∧ invoked_by (resolveUserIdentifier (rt := ascii_runtime)
                  env_no_credentials (js "johndoe"))
      empty_world
    = [(Directory, js "johndoe"); (Picker, js "johndoe")]
  ∧ fst (resolveUserIdentifier (rt := ascii_runtime) env_no_credentials
           (js "johndoe") empty_world)
    = Returned None.
Proof. repeat split; reflexivity. Qed.

(** C1 (amended): if the credential provider returns absent, every strategy
    call raises the auth-missing error, catches it itself and returns null;
    for every non-empty, non-canonical identifier that reaches a strategy
    call, [resolveUserIdentifier] then returns absent as an ordinary result
    (nothing is thrown across the resolver boundary), after at least one
    strategy call and without any request to the transport. *)
Theorem no_credentials_resolves_to_absent (id : jsstring) (w : World) :
  getAtlassianCredentials env = None →
  truthy id = true → isAccountId id = false → cache_miss id w = true →
  (∀ q v, fst (require_credentials env v)
          = Thrown (createAuthMissingError "user search")
          ∧ fst (searchUsersWithPicker env q v) = Returned None
          ∧ fst (searchUsers env q v) = Returned None)
  ∧ fst (resolveUserIdentifier env id w) = Returned None
  ∧ invoked_by (resolveUserIdentifier env id) w ≠ []
  ∧ fetched_by (resolveUserIdentifier env id) w = [].
Proof.
  intros Hcred Ht Hc Hm. split; [| split; [| split]].
  - intros q v. rewrite searchUsersWithPicker_run, searchUsers_run.
    rewrite !exchange_no_credentials by done.
    unfold require_credentials. by rewrite Hcred.
  - by apply resolve_absent_without_credentials.
  - rewrite (resolve_invoked_by_miss id w Ht Hc Hm).
    destruct (isEmail id); [discriminate |].
    simpl. discriminate.
  - exact (proj1 (proj2 (resolve_fetched_by_miss id w Ht Hc Hm)) Hcred).
Qed.

End Claims.

Lemma no_credentials_resolves_to_absent_witness :
  getAtlassianCredentials env_no_credentials = None
  ∧ truthy (js "john.doe@example.com") = true
  ∧ isAccountId (js "john.doe@example.com") = false
  ∧ cache_miss (rt := ascii_runtime) (js "john.doe@example.com")
      empty_world = true
  ∧ fst (resolveUserIdentifier (rt := ascii_runtime) env_no_credentials
           (js "john.doe@example.com") empty_world) = Returned None.
Proof.
  pose proof (no_credentials_resolves_to_absent (rt := ascii_runtime)
                env_no_credentials (js "john.doe@example.com") empty_world
                eq_refl eq_refl eq_refl eq_refl) as (_ & H & _).
  exact (conj eq_refl (conj eq_refl (conj eq_refl (conj eq_refl H)))).
Defined.

Section ChainClaims.

Context {rt : Runtime}.

Variable env : Transport.

(** ** C3 *)

(** C3, as the claim states it, fails: for an email-shaped identifier for
    which every search succeeds and finds nobody, one resolution calls the
    picker strategy twice with the same query. *)
Lemma picker_called_twice_for_email :
  isEmail (js "a@b.co") = true
  ∧ invoked_by (resolveUserIdentifier (rt := ascii_runtime) env_nobody
                  (js "a@b.co")) empty_world
    = [(Picker, js "a@b.co"); (Directory, js "a@b.co");
       (Picker, js "a@b.co")]
  ∧ ¬ NoDup (invoked_by (resolveUserIdentifier (rt := ascii_runtime)
                           env_nobody (js "a@b.co")) empty_world).
Proof.
  split; [reflexivity |]. split; [reflexivity |].
  change (¬ NoDup [(Picker, js "a@b.co"); (Directory, js "a@b.co");
                   (Picker, js "a@b.co")]).
  intros H. apply NoDup_cons in H as [H _]. apply H.
  right. left.
Qed.

(** C3 (amended): a single call of [resolveUserIdentifier] makes at most
    three strategy calls, all with the identifier as the query; it calls the
    directory strategy at most once; for an identifier that is not
    email-shaped it never repeats a strategy; it repeats a strategy exactly
    when the identifier reaches the strategies (it is not empty, not
    canonical and not served by the cache), is email-shaped, and the first
    picker call and the directory call both brought no candidate; the calls
    are then picker, directory, picker, all with the same query. *)
Theorem strategy_repetition (id : jsstring) (w : World) :
  (length (invoked_by (resolveUserIdentifier env id) w) ≤ 3)%nat
  ∧ Forall (λ call, call.2 = id)
      (invoked_by (resolveUserIdentifier env id) w)
  ∧ (length (filter (λ call, call.1 = Directory)
               (invoked_by (resolveUserIdentifier env id) w)) ≤ 1)%nat
  ∧ (isEmail id = false →
     NoDup (invoked_by (resolveUserIdentifier env id) w))
  ∧ (¬ NoDup (invoked_by (resolveUserIdentifier env id) w)
     ↔ truthy id = true ∧ isAccountId id = false
       ∧ cache_miss id w = true
       ∧ isEmail id = true
       ∧ yields_nothing (searchUsersWithPicker env id)
           (snd (UserCache_get id w)) = true
       ∧ yields_nothing (searchUsers env id)
           (snd (searchUsersWithPicker env id (snd (UserCache_get id w))))
         = true)
  ∧ (¬ NoDup (invoked_by (resolveUserIdentifier env id) w)
     ↔ invoked_by (resolveUserIdentifier env id) w
       = [(Picker, id); (Directory, id); (Picker, id)]).
Proof.
  assert (Hquiet :
    truthy id = false ∨ isAccountId id = true ∨ cache_miss id w = false →
    invoked_by (resolveUserIdentifier env id) w = []).
  { intros H. apply invoked_by_unchanged.
    by rewrite (resolve_without_search env id w H). }
  assert (Hfree : ∀ (l : list (Strategy * jsstring)) (P : Prop),
            NoDup l → (P → False) → (¬ NoDup l ↔ P)) by (intros; tauto).
  assert (Hnone :
    (truthy id = true ∧ isAccountId id = false ∧ cache_miss id w = true
     → False) →
    invoked_by (resolveUserIdentifier env id) w = [] →
    (length (invoked_by (resolveUserIdentifier env id) w) ≤ 3)%nat
    ∧ Forall (λ call, call.2 = id)
        (invoked_by (resolveUserIdentifier env id) w)
    ∧ (length (filter (λ call, call.1 = Directory)
                 (invoked_by (resolveUserIdentifier env id) w)) ≤ 1)%nat
    ∧ (isEmail id = false →
       NoDup (invoked_by (resolveUserIdentifier env id) w))
    ∧ (¬ NoDup (invoked_by (resolveUserIdentifier env id) w)
       ↔ truthy id = true ∧ isAccountId id = false
         ∧ cache_miss id w = true
         ∧ isEmail id = true
         ∧ yields_nothing (searchUsersWithPicker env id)
             (snd (UserCache_get id w)) = true
         ∧ yields_nothing (searchUsers env id)
             (snd (searchUsersWithPicker env id
                     (snd (UserCache_get id w))))
           = true)
    ∧ (¬ NoDup (invoked_by (resolveUserIdentifier env id) w)
       ↔ invoked_by (resolveUserIdentifier env id) w
         = [(Picker, id); (Directory, id); (Picker, id)])).
  { intros Hreach ->.
    split; [simpl; lia |]. split; [apply Forall_nil_2 |].
    split; [simpl; lia |]. split; [intros _; apply NoDup_nil_2 |].
    split; apply Hfree; try apply NoDup_nil_2; [tauto | discriminate]. }
  destruct (truthy id) eqn:Ht;
    [| apply Hnone; [intros [? _]; discriminate | auto]].
  destruct (isAccountId id) eqn:Hc;
    [apply Hnone; [intros (_ & ? & _); discriminate | auto] |].
  destruct (cache_miss id w) eqn:Hm;
    [| apply Hnone; [intros (_ & _ & ?); discriminate | auto]].
  clear Hnone.
  rewrite (resolve_invoked_by_miss env id w Ht Hc Hm).
  assert (Hpdp : ¬ NoDup [(Picker, id); (Directory, id); (Picker, id)]).
  { intros H. apply NoDup_cons in H as [H _]. apply H. right. left. }
  assert (Hpd : NoDup [(Picker, id); (Directory, id)]).
  { apply NoDup_cons. split; [| apply NoDup_singleton].
    by intros [=]%list_elem_of_singleton. }
  assert (Hdp : NoDup [(Directory, id); (Picker, id)]).
  { apply NoDup_cons. split; [| apply NoDup_singleton].
    by intros [=]%list_elem_of_singleton. }
  assert (Hp : NoDup [(Picker, id)]) by apply NoDup_singleton.
  assert (Hd : NoDup [(Directory, id)]) by apply NoDup_singleton.
  destruct (isEmail id);
    [destruct (yields_nothing (searchUsersWithPicker env id) _) |];
    destruct (yields_nothing (searchUsers env id) _); simpl;
    (split; [lia |]);
    (split; [repeat (apply Forall_cons; split; [reflexivity |]);
             apply Forall_nil_2 |]);
    (split; [lia |]);
    (split; [first [discriminate | by intros _] |]);
    first [ split; [by split | by split]
          | split; apply Hfree; try done;
            first [intros (_ & _ & _ & ? & ? & ?); discriminate
                  | discriminate] ].
Qed.

(** ** C5 *)

(** C5: a resolution that reaches the strategies (the identifier is not
    empty, not canonical and not served by the cache) calls them in this
    order: the picker first when the identifier is email-shaped; then the
    directory when that brought no candidate or was not attempted; then the
    picker when the directory brought none either.  For an identifier that
    is not email-shaped, when the directory search returns null and the
    picker call that follows returns a list, that list is the result of the
    chain and the resolution returns the account id of the record chosen
    from it. *)
Theorem fallback_order (id : jsstring) (w : World) :
  truthy id = true → isAccountId id = false → cache_miss id w = true →
  invoked_by (resolveUserIdentifier env id) w
  = (if isEmail id then [(Picker, id)] else [])
    ++ (if (if isEmail id
            then yields_nothing (searchUsersWithPicker env id)
                   (snd (UserCache_get id w))
            else true)
        then (Directory, id)
             :: (if yields_nothing (searchUsers env id)
                      (if isEmail id
                       then snd (searchUsersWithPicker env id
                                   (snd (UserCache_get id w)))
                       else snd (UserCache_get id w))
                 then [(Picker, id)]
                 else [])
        else [])
  ∧ (isEmail id = false →
     fst (searchUsers env id (snd (UserCache_get id w))) = Returned None →
     ∀ found,
       fst (searchUsersWithPicker env id
              (snd (searchUsers env id (snd (UserCache_get id w)))))
       = Returned (Some found) →
       invoked_by (resolveUserIdentifier env id) w
       = [(Directory, id); (Picker, id)]
       ∧ fst (search_chain env id (snd (UserCache_get id w)))
         = Returned (Some found)
       ∧ fst (resolveUserIdentifier env id w)
         = Returned
             match select_user id found with
             | Some u =>
                 if truthy (accountId u) then Some (accountId u) else None
             | None => None
             end).
Proof.
  intros Ht Hc Hm. split; [by apply resolve_invoked_by_miss |].
  intros Hemail Hdir found Hpick.
  assert (Hnothing : yields_nothing (searchUsers env id)
                       (snd (UserCache_get id w)) = true)
    by (unfold yields_nothing; by rewrite Hdir).
  split; [| split].
  - rewrite (resolve_invoked_by_miss env id w Ht Hc Hm).
    by rewrite Hemail, Hnothing.
  - destruct (search_chain_cases env id (snd (UserCache_get id w)))
      as [(? & _) | [(? & _) | [(? & _) | [(_ & ? & _) | (_ & _ & E)]]]];
      try congruence.
    rewrite E. by rewrite searchUsers_run in Hpick.
  - rewrite (resolve_other env id w Ht Hc), (resolve_after_miss env id w Hm).
    destruct (resolve_by_search_run env id (snd (UserCache_get id w)))
      as (users & w' & E & ->).
    destruct (search_chain_cases env id (snd (UserCache_get id w)))
      as [(? & _) | [(? & _) | [(? & _) | [(_ & ? & _) | (_ & _ & E')]]]];
      try congruence.
    rewrite searchUsers_run in Hpick. cbn [snd] in Hpick.
    rewrite <- E', E in Hpick. injection Hpick as ->.
    destruct found as [|u0 us]; [by rewrite settle_nothing |].
    destruct (select_user_nonempty id u0 us) as (u & Hsel & _).
    rewrite (settle_candidates id _ u w') by done. rewrite Hsel.
    by destruct (truthy (accountId u)).
Qed.

End ChainClaims.

(** "johndoe" is not email-shaped: the directory and then the picker are
    called, each once.  "a@b.co" is email-shaped and nobody is found: the
    picker is called, then the directory, then the picker again. *)
Lemma strategy_repetition_witness :
  isEmail (js "johndoe") = false
  ∧ NoDup (invoked_by (resolveUserIdentifier (rt := ascii_runtime)
                         env_nobody (js "johndoe")) empty_world)
  ∧ invoked_by (resolveUserIdentifier (rt := ascii_runtime) env_nobody
                  (js "a@b.co")) empty_world
    = [(Picker, js "a@b.co"); (Directory, js "a@b.co");
       (Picker, js "a@b.co")].
Proof.
  split; [reflexivity |]. split.
  - apply (proj1 (proj2 (proj2 (proj2
             (strategy_repetition (rt := ascii_runtime) env_nobody
                (js "johndoe") empty_world))))).
    reflexivity.
  - destruct (strategy_repetition (rt := ascii_runtime) env_nobody
                (js "a@b.co") empty_world)
      as (_ & _ & _ & _ & Hwhen & Hlog).
    apply Hlog, Hwhen.
    exact (conj eq_refl (conj eq_refl (conj eq_refl (conj eq_refl
             (conj eq_refl eq_refl))))).
Defined.

(** The directory search is refused and the picker finds Jane Roe and John
    Doe: "John Doe" resolves to the account id of the second record, the
    exact match of the picker's list. *)
Lemma fallback_order_witness :
  truthy (js "John Doe") = true
  ∧ isAccountId (js "John Doe") = false
  ∧ cache_miss (rt := ascii_runtime) (js "John Doe") empty_world = true
  ∧ isEmail (js "John Doe") = false
  ∧ invoked_by (resolveUserIdentifier (rt := ascii_runtime)
                  env_directory_refused (js "John Doe")) empty_world
    = [(Directory, js "John Doe"); (Picker, js "John Doe")]
  ∧ fst (resolveUserIdentifier (rt := ascii_runtime) env_directory_refused
           (js "John Doe") empty_world)
    = Returned (Some (js "557058:user-id-456")).
Proof.
  pose proof (proj2 (fallback_order (rt := ascii_runtime)
                       env_directory_refused (js "John Doe")
                       empty_world eq_refl eq_refl eq_refl)
                eq_refl eq_refl [janeRoe; johnDoe] eq_refl)
    as (Hlog & _ & Hres).
  exact (conj eq_refl (conj eq_refl (conj eq_refl (conj eq_refl
           (conj Hlog Hres))))).
Defined.

(** An identifier with a no-break space is not email-shaped (the
    white-space class of the pattern covers U+00A0): its resolution starts
    with the directory search. *)
Example no_break_space_is_not_email :
  isEmail spaced_address = false
  ∧ invoked_by (resolveUserIdentifier (rt := ascii_runtime) env_nobody
                  spaced_address) empty_world
    = [(Directory, spaced_address); (Picker, spaced_address)].
Proof. split; reflexivity. Qed.

(* ===================================================================== *)
(** * Disambiguation and the cache write *)
(* ===================================================================== *)

(** [Array.prototype.find] returns the first element that passes. *)
Lemma find_first {A : Type} (p : A → bool) (l : list A) (u : A) :
  find p l = Some u →
  p u = true
  ∧ ∃ before after, l = before ++ u :: after
                    ∧ Forall (λ v, p v = false) before.
Proof.
  induction l as [|x l IH]; simpl; [discriminate |].
  destruct (p x) eqn:Hx.
  - intros [= ->]. split; [done |]. by exists [], l.
  - intros [Hu (before & after & -> & Hb)]%IH. split; [done |].
    exists (x :: before), after. split; [reflexivity |].
    by apply Forall_cons.
Qed.

Lemma find_nothing {A : Type} (p : A → bool) (l : list A) :
  find p l = None ↔ ∀ v, v ∈ l → p v = false.
Proof.
  split.
  - intros H v Hv. apply (find_none p l H). by apply list_elem_of_In.
  - intros H. destruct (find p l) as [u|] eqn:E; [| reflexivity].
    apply find_some in E as [Hin Hp]. apply list_elem_of_In in Hin.
    rewrite (H u Hin) in Hp. discriminate.
Qed.

Section SettleClaims.

Context {rt : Runtime}.

Variable env : Transport.

(** ** C8 *)

(** C8: when the chain ends with a non-empty candidate list, the resolver
    chooses from that list the first record whose email address, login name
    or display name equals the identifier once both are lower-cased; when
    no record of the list is such a match it chooses the first record of
    the list as the vendor returned it.  The account id of the chosen
    record, when not empty, is the result.  Equality after lower-casing is
    equality ignoring case: for an identifier and a field of ASCII
    characters it holds exactly when the two are equal up to the case of
    their letters. *)
Theorem disambiguation (id : jsstring) (w : World) (found : list User) :
  truthy id = true → isAccountId id = false → cache_miss id w = true →
  fst (search_chain env id (snd (UserCache_get id w)))
  = Returned (Some found) →
  found ≠ [] →
  ∃ u, select_user id found = Some u
       ∧ fst (resolveUserIdentifier env id w)
         = Returned (if truthy (accountId u)
                     then Some (accountId u) else None)
       ∧ ((∃ v, v ∈ found ∧ exact_match id v = true) →
          exact_match id u = true
          ∧ ∃ before after,
              found = before ++ u :: after
              ∧ Forall (λ v, exact_match id v = false) before)
       ∧ ((∀ v, v ∈ found → exact_match id v = false) →
          head found = Some u)
       ∧ (∀ v, exact_match id v = true
               ↔ (∃ e, emailAddress v = Some e
                       ∧ toLowerCase e = toLowerCase id)
                 ∨ (∃ n, name v = Some n
                         ∧ toLowerCase n = toLowerCase id)
                 ∨ (∃ d, displayName v = Some d
                         ∧ toLowerCase d = toLowerCase id))
       ∧ (∀ field,
            forallb is_ascii field = true → forallb is_ascii id = true →
            same_ignoring_case (Some field) id = same_letters field id).
Proof.
  intros Ht Hc Hm Hchain Hne.
  destruct found as [|u0 us]; [done |].
  destruct (select_user_nonempty id u0 us) as (u & Hsel & _).
  exists u. split; [done |]. split; [| split; [| split; [| split]]].
  - rewrite (resolve_other env id w Ht Hc), (resolve_after_miss env id w Hm).
    destruct (resolve_by_search_run env id (snd (UserCache_get id w)))
      as (users & w' & E & ->).
    rewrite E in Hchain. injection Hchain as ->.
    rewrite (settle_candidates id _ u w') by done.
    by destruct (truthy (accountId u)).
  - intros (v & Hv & Hmatch). unfold select_user in Hsel.
    destruct (find (exact_match id) (u0 :: us)) as [u'|] eqn:E.
    + injection Hsel as ->. by apply find_first.
    + rewrite (proj1 (find_nothing _ _) E v Hv) in Hmatch. discriminate.
  - intros Hnone. unfold select_user in Hsel.
    by rewrite (proj2 (find_nothing _ _) Hnone) in Hsel.
  - intros v. unfold exact_match.
    rewrite !orb_true_iff, !same_ignoring_case_iff. tauto.
  - intros field Hfield Hid. apply eq_true_iff_eq.
    rewrite same_ignoring_case_iff, <- toLowerCase_same_letters by done.
    split; [by intros (? & [= <-] & ?) | eauto].
Qed.

(** ** C6 *)



End SettleClaims.

(** Jane Roe comes first in the picker's list; John Doe, whose display
    name is "John Doe", is the exact match for "JOHN DOE" and is chosen;
    for "J" neither matches and the first record is chosen. *)
Lemma disambiguation_witness :
  fst (resolveUserIdentifier (rt := ascii_runtime) env_directory_refused
         (js "JOHN DOE") empty_world)
  = Returned (Some (js "557058:user-id-456"))
  ∧ fst (resolveUserIdentifier (rt := ascii_runtime) env_directory_refused
           (js "J") empty_world)
    = Returned (Some (js "557058:user-id-789"))
  ∧ same_ignoring_case (rt := ascii_runtime) (Some (js "John Doe"))
      (js "JOHN DOE") = true.
Proof.
  split; [| split].
  - destruct (disambiguation (rt := ascii_runtime) env_directory_refused
                (js "JOHN DOE") empty_world
                [janeRoe; johnDoe] eq_refl eq_refl eq_refl eq_refl)
      as (u & Hsel & Hres & _); [discriminate |].
    injection Hsel as <-. exact Hres.
  - destruct (disambiguation (rt := ascii_runtime) env_directory_refused
                (js "J") empty_world
                [janeRoe; johnDoe] eq_refl eq_refl eq_refl eq_refl)
      as (u & Hsel & Hres & _); [discriminate |].
    injection Hsel as <-. exact Hres.
  - destruct (disambiguation (rt := ascii_runtime) env_directory_refused
                (js "JOHN DOE") empty_world
                [janeRoe; johnDoe] eq_refl eq_refl eq_refl eq_refl)
      as (u & _ & _ & _ & _ & _ & Hcase); [discriminate |].
    rewrite (Hcase (js "John Doe") eq_refl eq_refl). reflexivity.
Defined.


(* ===================================================================== *)
(** * Repeated resolution *)
(* ===================================================================== *)

Section CachingClaims.

Context {rt : Runtime}.

Variable env : Transport.

(** A successful resolution of an identifier that is not canonical leaves
    the result in the cache, under the lower-cased identifier, not older
    than the clock. *)
Lemma resolve_success_cached (id a : jsstring) (w : World) :
  isAccountId id = false →
  fst (resolveUserIdentifier env id w) = Returned (Some a) →
  truthy id = true ∧ truthy a = true
  ∧ ∃ ts, cache (snd (resolveUserIdentifier env id w)) !! toLowerCase id
          = Some {| entry_accountId := a; timestamp := ts |}
          ∧ now (snd (resolveUserIdentifier env id w)) - ts < TTL.
Proof.
  intros Hc.
  destruct (resolve_cases env id w)
    as [(_ & E) | [(? & _) | [(Ht & _ & _ & a' & ts & E & Ha & Hl & Hts)
       | (Ht & _ & Hm & E)]]]; try congruence; rewrite E.
  - discriminate.
  - simpl. intros [= ->]. eauto.
  - destruct (resolve_by_search_run env id (snd (UserCache_get id w)))
      as (users & w' & _ & ->).
    destruct users as [[|u0 us]|];
      try (rewrite settle_nothing by done; discriminate).
    destruct (select_user_nonempty id u0 us) as (u & Hsel & _).
    rewrite (settle_candidates id _ u w') by done.
    destruct (truthy (accountId u)) eqn:Hu; [| discriminate].
    simpl. intros [= <-]. repeat split; try done.
    exists (now w'). rewrite lookup_insert_eq.
    split; [reflexivity |]. unfold TTL. lia.
Qed.

(** A fresh entry with a non-empty account id answers the resolution; the
    world stays as it was. *)
Lemma resolve_hit_run (id a : jsstring) (ts : Z) (w : World) :
  truthy id = true → isAccountId id = false → truthy a = true →
  cache w !! toLowerCase id
  = Some {| entry_accountId := a; timestamp := ts |} →
  now w - ts < TTL →
  resolveUserIdentifier env id w = (Returned (Some a), w).
Proof.
  intros Ht Hc Ha Hl Hts. rewrite (resolve_other env id w Ht Hc).
  unfold resolve_by_cache_and_search.
  rewrite (bind_run _ _ _ _ _ (UserCache_get_hit id w _ Hl Hts)).
  simpl. by rewrite Ha.
Qed.

(** ** C9 *)

(** C9, as the claim states it, fails on the count of network calls: with
    the directory search refused and the picker finding the user, "John
    Doe" resolves, the second call returns the same id from the cache and
    sends nothing, and the two calls together have sent two requests, not
    one. *)
Lemma two_requests_before_the_cache_hit :
  fst (resolveUserIdentifier (rt := ascii_runtime) env_directory_refused
         (js "John Doe") empty_world)
  = Returned (Some (js "557058:user-id-456"))
  ∧ fst (resolveUserIdentifier (rt := ascii_runtime) env_directory_refused
           (js "John Doe")
           (snd (resolveUserIdentifier (rt := ascii_runtime)
                   env_directory_refused (js "John Doe") empty_world)))
    = Returned (Some (js "557058:user-id-456"))
  ∧ fetched (snd (resolveUserIdentifier (rt := ascii_runtime)
                    env_directory_refused (js "John Doe")
                    (snd (resolveUserIdentifier (rt := ascii_runtime)
                            env_directory_refused (js "John Doe")
                            empty_world))))
    = [js "/rest/api/3/user/search?query=John%20Doe&maxResults=10";
       js "/rest/api/3/groupuserpicker?query=John%20Doe&maxResults=10&showAvatar=false"].
Proof. repeat split; vm_compute; reflexivity. Qed.

(** C9 (amended): for every identifier that resolves successfully, a second
    call made with the cache the first call left and within the TTL of the
    entry stored under the identifier (or for a canonical identifier, at any
    time) yields the same id, is answered without any strategy call or
    request, and leaves the world untouched.  The transport is invoked only
    during the first call, which sends at most three requests, and at least
    one when it was not itself answered by the cache or by the canonical
    shape of the identifier. *)
Theorem repeated_resolution_hits_cache (id a : jsstring) (w : World) :
  fst (resolveUserIdentifier env id w) = Returned (Some a) →
  (isAccountId id = false →
   fresh_entry id (snd (resolveUserIdentifier env id w)) = true)
  ∧ (length (fetched_by (resolveUserIdentifier env id) w) ≤ 3)%nat
  ∧ (isAccountId id = false → cache_miss id w = true →
     (1 ≤ length (fetched_by (resolveUserIdentifier env id) w))%nat)
  ∧ (∀ w2, cache w2 = cache (snd (resolveUserIdentifier env id w)) →
           isAccountId id = true ∨ fresh_entry id w2 = true →
           resolveUserIdentifier env id w2 = (Returned (Some a), w2)
           ∧ fetched_by (resolveUserIdentifier env id) w2 = []
           ∧ invoked_by (resolveUserIdentifier env id) w2 = []).
Proof.
  intros Hres. split; [| split; [| split]].
  - intros Hc.
    destruct (resolve_success_cached id a w Hc Hres)
      as (_ & _ & ts & Hl & Hts).
    unfold fresh_entry. rewrite Hl. simpl. by apply Z.ltb_lt.
  - destruct (truthy id) eqn:Ht;
      [destruct (isAccountId id) eqn:Hc;
       [| destruct (cache_miss id w) eqn:Hm] |];
      try (rewrite fetched_by_unchanged;
           [simpl; lia | by rewrite resolve_without_search by auto]).
    exact (proj1 (resolve_fetched_by_miss env id w Ht Hc Hm)).
  - intros Hc Hm.
    destruct (resolve_success_cached id a w Hc Hres) as (Ht & _).
    destruct (resolve_found_by_miss env id a w Ht Hc Hm Hres)
      as [Hcred Hquery].
    by apply (resolve_fetched_by_miss env id w Ht Hc Hm).
  - intros w2 Hcache Hwindow.
    assert (E : resolveUserIdentifier env id w2 = (Returned (Some a), w2)).
    { destruct (isAccountId id) eqn:Hc.
      - rewrite (resolve_canonical env id w Hc) in Hres.
        injection Hres as <-. by apply resolve_canonical.
      - destruct Hwindow as [? | Hfresh]; [discriminate |].
        destruct (resolve_success_cached id a w Hc Hres)
          as (Ht & Ha & ts & Hl & _).
        unfold fresh_entry in Hfresh. rewrite Hcache, Hl in Hfresh.
        simpl in Hfresh. apply Z.ltb_lt in Hfresh.
        apply (resolve_hit_run id a ts w2 Ht Hc Ha); [| done].
        by rewrite Hcache. }
    split; [done |].
    split; [apply fetched_by_unchanged | apply invoked_by_unchanged];
      by rewrite E.
Qed.

End CachingClaims.

(** The test 'should use cache for repeated lookups': the first call sends
    one request; the second call, one millisecond before the entry expires,
    returns the same id and sends nothing. *)
Lemma repeated_resolution_hits_cache_witness :
  fst (resolveUserIdentifier (rt := ascii_runtime) env_cached
         (js "cached@example.com") empty_world)
  = Returned (Some (js "557058:cached-user"))
  ∧ fst (resolveUserIdentifier (rt := ascii_runtime) env_cached
           (js "cached@example.com")
           {| cache := cache (snd (resolveUserIdentifier
                                     (rt := ascii_runtime) env_cached
                                     (js "cached@example.com")
                                     empty_world));
              now := 3600004;
              fetched := fetched (snd (resolveUserIdentifier
                                         (rt := ascii_runtime) env_cached
                                         (js "cached@example.com")
                                         empty_world));
              invoked := [] |})
    = Returned (Some (js "557058:cached-user"))
  ∧ fetched_by (resolveUserIdentifier (rt := ascii_runtime) env_cached
                  (js "cached@example.com"))
      {| cache := cache (snd (resolveUserIdentifier
                                (rt := ascii_runtime) env_cached
                                (js "cached@example.com") empty_world));
         now := 3600004;
         fetched := fetched (snd (resolveUserIdentifier
                                    (rt := ascii_runtime) env_cached
                                    (js "cached@example.com")
                                    empty_world));
         invoked := [] |}
    = [].
Proof.
  destruct (repeated_resolution_hits_cache (rt := ascii_runtime) env_cached
              (js "cached@example.com") (js "557058:cached-user")
              empty_world eq_refl)
    as (_ & _ & _ & Hsecond).
  destruct (Hsecond
              {| cache := cache (snd (resolveUserIdentifier
                                        (rt := ascii_runtime) env_cached
                                        (js "cached@example.com")
                                        empty_world));
                 now := 3600004;
                 fetched := fetched (snd (resolveUserIdentifier
                                            (rt := ascii_runtime)
                                            env_cached
                                            (js "cached@example.com")
                                            empty_world));
                 invoked := [] |}
              eq_refl (or_intror eq_refl)) as (Hres & Hsent & _).
  split; [reflexivity |]. split; [| exact Hsent].
  by rewrite Hres.
Defined.

(* ===================================================================== *)
(** * Case sensitivity of the classifier *)
(* ===================================================================== *)

Lemma upper_letter_truthy (s : jsstring) :
  existsb hex_upper_letter s = true → truthy s = true.
Proof. destruct s; [discriminate | reflexivity]. Qed.

(** A string with an upper-case hexadecimal letter among the characters
    before its first colon is not canonical. *)
Lemma upper_prefix_rejected (p rest : jsstring) :
  existsb is_colon p = false →
  existsb hex_upper_letter p = true →
  isAccountId (p ++ js ":" ++ rest) = false.
Proof.
  intros Hcolon Hupper.
  destruct (isAccountId (p ++ js ":" ++ rest)) eqn:E; [| reflexivity].
  apply isAccountId_iff in E as [(p' & rest' & E & _ & Hhex) | [_ Hall]].
  - apply first_colon_unique in E; [| done | by apply hex_lower_no_colon].
    subst p'.
    apply (exists_excludes_forall _ hex_lower) in Hupper;
      [congruence | apply upper_not_hex_lower].
  - rewrite forallb_app in Hall. apply andb_true_iff in Hall as [Hall _].
    apply (exists_excludes_forall _ hex_lower_or_hyphen) in Hupper;
      [congruence | apply upper_not_hex_lower_or_hyphen].
Qed.

(** A string of hexadecimal digits and hyphens with an upper-case letter is
    not canonical, whatever its length. *)
Lemma upper_uuid_rejected (s : jsstring) :
  forallb hex_or_hyphen s = true →
  existsb hex_upper_letter s = true →
  isAccountId s = false.
Proof.
  intros Hshape Hupper.
  destruct (isAccountId s) eqn:E; [| reflexivity].
  apply isAccountId_iff in E as [(p & rest & -> & _ & _) | [_ Hall]].
  - rewrite !forallb_app in Hshape.
    apply andb_true_iff in Hshape as [_ Hshape].
    apply andb_true_iff in Hshape as [Hshape _]. discriminate.
  - apply (exists_excludes_forall _ hex_lower_or_hyphen) in Hupper;
      [congruence | apply upper_not_hex_lower_or_hyphen].
Qed.

(** When nobody is ever found, whatever the query. *)
Lemma env_nobody_yields_nothing (q : jsstring) (v : World) :
  yields_nothing (searchUsersWithPicker env_nobody q) v = true
  ∧ yields_nothing (searchUsers env_nobody q) v = true.
Proof.
  rewrite yields_nothing_picker, yields_nothing_directory.
  unfold exchange, path_of. simpl.
  by destruct (encodeURIComponent q).
Qed.

Section ClassifierClaims.

Context {rt : Runtime}.

Variable env : Transport.

(** What a resolution that misses the cache returns is the account id of a
    record of the list the search chain ended with. *)
Lemma resolve_miss_sources (id a : jsstring) (w : World) :
  truthy id = true → isAccountId id = false → cache_miss id w = true →
  fst (resolveUserIdentifier env id w) = Returned (Some a) →
  a ≠ []
  ∧ ∃ found u,
      fst (search_chain env id (snd (UserCache_get id w)))
      = Returned (Some found)
      ∧ u ∈ found ∧ accountId u = a.
Proof.
  intros Ht Hc Hm.
  rewrite (resolve_other env id w Ht Hc), (resolve_after_miss env id w Hm).
  destruct (resolve_by_search_run env id (snd (UserCache_get id w)))
    as (users & w' & E & ->). rewrite E.
  destruct users as [[|u0 us]|];
    try (rewrite settle_nothing by done; discriminate).
  destruct (select_user_nonempty id u0 us) as (u & Hsel & Hin).
  rewrite (settle_candidates id _ u w') by done.
  destruct (truthy (accountId u)) eqn:Hu; [| discriminate].
  intros [= <-]. split; [by apply truthy_iff | eauto].
Qed.

(** When no strategy call brings a candidate, a resolution that misses the
    cache returns absent. *)
Lemma resolve_miss_nothing (id : jsstring) (w : World) :
  truthy id = true → isAccountId id = false → cache_miss id w = true →
  (∀ q v, yields_nothing (searchUsersWithPicker env q) v = true
          ∧ yields_nothing (searchUsers env q) v = true) →
  fst (resolveUserIdentifier env id w) = Returned None.
Proof.
  intros Ht Hc Hm Hnothing.
  rewrite (resolve_other env id w Ht Hc), (resolve_after_miss env id w Hm).
  destruct (resolve_by_search_run env id (snd (UserCache_get id w)))
    as (users & w' & Echain & ->).
  destruct (search_chain_nothing env id (snd (UserCache_get id w))
              Hnothing) as (users' & Eu & Hno).
  rewrite Echain in Eu. injection Eu as <-.
  by rewrite settle_nothing.
Qed.

(** ** C10 *)

(** C10: the classification is case-sensitive.  [isAccountId] returns false
    for every string whose part before the first colon contains an
    upper-case hexadecimal letter, and for every 36-character string of
    hexadecimal digits and hyphens that contains an upper-case letter.
    Such an identifier is not passed through: its resolution reads the
    cache; on a hit it returns the account id of the fresh entry under the
    lower-cased identifier; on a miss it calls the strategies with the
    identifier as the query, what it returns is the account id of a record
    the search found, and it returns absent when the search finds nobody.
    The cache read and the exact match of that chain ignore case: they
    depend on the lower-case form of the identifier only. *)
Theorem classification_is_case_sensitive (s : jsstring) (w : World) :
  (∃ p rest, s = p ++ js ":" ++ rest
             ∧ existsb is_colon p = false
             ∧ existsb hex_upper_letter p = true)
  ∨ (length s = 36%nat
     ∧ forallb hex_or_hyphen s = true
     ∧ existsb hex_upper_letter s = true) →
  isAccountId s = false
  ∧ (cache_miss s w = false →
     ∃ a ts, resolveUserIdentifier env s w = (Returned (Some a), w)
             ∧ cache w !! toLowerCase s
               = Some {| entry_accountId := a; timestamp := ts |}
             ∧ now w - ts < TTL)
  ∧ (cache_miss s w = true →
     head (invoked_by (resolveUserIdentifier env s) w)
     = Some (if isEmail s then Picker else Directory, s)
     ∧ (∀ a, fst (resolveUserIdentifier env s w) = Returned (Some a) →
             ∃ found u,
               fst (search_chain env s (snd (UserCache_get s w)))
               = Returned (Some found)
               ∧ u ∈ found ∧ accountId u = a)
     ∧ ((∀ q v, yields_nothing (searchUsersWithPicker env q) v = true
                ∧ yields_nothing (searchUsers env q) v = true) →
        fst (resolveUserIdentifier env s w) = Returned None))
  ∧ (∀ s', toLowerCase s' = toLowerCase s →
           UserCache_get s' w = UserCache_get s w)
  ∧ (∀ s' u, toLowerCase s' = toLowerCase s →
             exact_match s' u = exact_match s u).
Proof.
  intros Hshape.
  assert (Hc : isAccountId s = false).
  { destruct Hshape as [(p & rest & -> & Hcolon & Hupper) | (_ & Hs & Hu)].
    - by apply upper_prefix_rejected.
    - by apply upper_uuid_rejected. }
  assert (Ht : truthy s = true).
  { destruct Hshape as [(p & rest & -> & _ & Hupper) | (_ & _ & Hu)].
    - apply upper_letter_truthy. rewrite existsb_app, Hupper. reflexivity.
    - by apply upper_letter_truthy. }
  split; [done |]. split; [| split; [| split]].
  - intros Hm. rewrite (resolve_other env s w Ht Hc).
    destruct (resolve_after_hit env s w Hm) as (a & ts & E & _ & Hl & Hts).
    eauto.
  - intros Hm. split; [| split].
    + rewrite (resolve_invoked_by_miss env s w Ht Hc Hm).
      by destruct (isEmail s).
    + intros a Ha.
      by destruct (resolve_miss_sources s a w Ht Hc Hm Ha).
    + by apply resolve_miss_nothing.
  - intros s' Hlow. unfold UserCache_get. by rewrite Hlow.
  - intros s' u Hlow. unfold exact_match, same_ignoring_case.
    by rewrite Hlow.
Qed.

End ClassifierClaims.

(** "5570AB:x" and an upper-case UUID are not canonical, while "5570ab:x"
    is; with a directory that knows nobody, "5570AB:x" is searched for,
    first by the directory search, and resolves to absent, not to
    itself. *)
Lemma classification_is_case_sensitive_witness :
  isAccountId (js "5570AB:x") = false
  ∧ isAccountId (js "5570ab:x") = true
  ∧ isAccountId (js "12345678-1234-1234-1234-123456789ABC") = false
  ∧ head (invoked_by (resolveUserIdentifier (rt := ascii_runtime) env_nobody
                        (js "5570AB:x")) empty_world)
    = Some (Directory, js "5570AB:x")
  ∧ fst (resolveUserIdentifier (rt := ascii_runtime) env_nobody
           (js "5570AB:x") empty_world)
    = Returned None.
Proof.
  assert (Hshape :
    ∃ p rest, js "5570AB:x" = p ++ js ":" ++ rest
              ∧ existsb is_colon p = false
              ∧ existsb hex_upper_letter p = true).
  { exists (js "5570AB"), (js "x").
    exact (conj eq_refl (conj eq_refl eq_refl)). }
  destruct (classification_is_case_sensitive (rt := ascii_runtime)
              env_nobody (js "5570AB:x") empty_world (or_introl Hshape))
    as (Hfalse & _ & Hmiss & _).
  destruct (Hmiss eq_refl) as (Hfirst & _ & Hnone).
  split; [exact Hfalse |]. split; [reflexivity |]. split.
  - apply (classification_is_case_sensitive (rt := ascii_runtime)
             env_nobody (js "12345678-1234-1234-1234-123456789ABC")
             empty_world).
    right. exact (conj eq_refl (conj eq_refl eq_refl)).
  - split; [exact Hfirst |].
    apply Hnone. apply env_nobody_yields_nothing.
Defined.

(* ===================================================================== *)
(** * The cases of the test suite *)
(* ===================================================================== *)

Example isAccountId_accepts :
  isAccountId (js "557058:12345678-1234-1234-1234-123456789abc") = true
  ∧ isAccountId (js "5bc73a:abcdef12-3456-7890-abcd-ef1234567890") = true
  ∧ isAccountId (js "12345678-1234-1234-1234-123456789abc") = true.
Proof. repeat split; vm_compute; reflexivity. Qed.

Example isAccountId_rejects :
  isAccountId (js "john.doe@example.com") = false
  ∧ isAccountId (js "johndoe") = false
  ∧ isAccountId (js "John Doe") = false
  ∧ isAccountId [] = false.
Proof. repeat split; vm_compute; reflexivity. Qed.

Example isEmail_accepts :
  isEmail (js "john.doe@example.com") = true
  ∧ isEmail (js "user+tag@domain.co.uk") = true
  ∧ isEmail (js "test.email@sub.domain.org") = true.
Proof. repeat split; vm_compute; reflexivity. Qed.

Example isEmail_rejects :
  isEmail (js "johndoe") = false
  ∧ isEmail (js "John Doe") = false
  ∧ isEmail (js "557058:12345678") = false
  ∧ isEmail (js "@example.com") = false
  ∧ isEmail (js "user@") = false
  ∧ isEmail [] = false.
Proof. repeat split; vm_compute; reflexivity. Qed.

Example picker_path_of_email :
  path_of Picker (js "john.doe@example.com")
  = Some (js "/rest/api/3/groupuserpicker?query=john.doe%40example.com&maxResults=10&showAvatar=false").
Proof. vm_compute. reflexivity. Qed.

Example search_path_of_display_name :
  path_of Directory (js "John Doe")
  = Some (js "/rest/api/3/user/search?query=John%20Doe&maxResults=10").
Proof. vm_compute. reflexivity. Qed.

Example resolve_canonical_passthrough :
  resolveUserIdentifier (rt := ascii_runtime) env_cached
    (js "557058:user-id-123") empty_world
  = (Returned (Some (js "557058:user-id-123")), empty_world).
Proof. vm_compute. reflexivity. Qed.

Example resolve_empty_identifier :
  resolveUserIdentifier (rt := ascii_runtime) env_cached [] empty_world
  = (Returned None, empty_world).
Proof. vm_compute. reflexivity. Qed.

Example resolve_not_found :
  fst (resolveUserIdentifier (rt := ascii_runtime) env_nobody
         (js "nonexistent@example.com") empty_world) = Returned None
  ∧ cache (snd (resolveUserIdentifier (rt := ascii_runtime) env_nobody
                  (js "nonexistent@example.com") empty_world)) = ∅.
Proof. split; vm_compute; reflexivity. Qed.

(** After [clearUserCache] a resolved identifier is searched for again. *)
Example clear_forces_a_new_search :
  length (fetched (snd (resolveUserIdentifier (rt := ascii_runtime)
                          env_cached (js "cached@example.com")
                          empty_world))) = 1%nat
  ∧ length (fetched
              (snd (resolveUserIdentifier (rt := ascii_runtime) env_cached
                      (js "cached@example.com")
                      (snd (clearUserCache
                              (snd (resolveUserIdentifier
                                      (rt := ascii_runtime) env_cached
                                      (js "cached@example.com")
                                      empty_world))))))) = 2%nat.
Proof. split; vm_compute; reflexivity. Qed.

(** ** Beyond ASCII *)

(** [encodeURIComponent] writes a code point as the percent-encoded octets
    of its UTF-8 form: U+00E9 takes two octets, and the surrogate pair
    D83D DE00 (U+1F600) four. *)
Example encodeURIComponent_utf8 :
  encodeURIComponent [233%N] = Some (js "%C3%A9")
  ∧ encodeURIComponent [55357%N; 56832%N] = Some (js "%F0%9F%98%80")
  ∧ encodeURIComponent (js "a b&c=d/e?f") = Some (js "a%20b%26c%3Dd%2Fe%3Ff")
  ∧ encodeURIComponent (js "A-z_0.9!~*'()") = Some (js "A-z_0.9!~*'()").
Proof. repeat split; vm_compute; reflexivity. Qed.

(** A surrogate without its partner cannot be encoded: the strategy's
    [catch] turns the URIError into null before any request is sent, and
    the resolution ends with absent after two strategy calls and no
    request, with credentials configured. *)
Example lone_surrogate_is_not_sent :
  encodeURIComponent lone_surrogate = None
  ∧ encodeURIComponent [56832%N; 55357%N] = None
  ∧ is_Some (getAtlassianCredentials env_cached)
  ∧ searchUsers env_cached lone_surrogate empty_world
    = (Returned None,
       {| cache := ∅; now := 0; fetched := [];
          invoked := [(Directory, lone_surrogate)] |})
  ∧ fst (resolveUserIdentifier (rt := ascii_runtime) env_cached
           lone_surrogate empty_world) = Returned None
  ∧ invoked_by (resolveUserIdentifier (rt := ascii_runtime) env_cached
                  lone_surrogate) empty_world
    = [(Directory, lone_surrogate); (Picker, lone_surrogate)]
  ∧ fetched_by (resolveUserIdentifier (rt := ascii_runtime) env_cached
                  lone_surrogate) empty_world = [].
Proof. repeat split; try (vm_compute; reflexivity). by eexists. Qed.

(** The white-space class of the email pattern is the one of the language:
    it holds the no-break space, the line and paragraph separators, the
    ideographic space and the byte-order mark, next to the ASCII ones. *)
Example white_space_class :
  forallb is_space [9; 10; 11; 12; 13; 32; 160; 5760; 8192; 8202; 8232;
                    8233; 8239; 8287; 12288; 65279]%N = true
  ∧ existsb is_space [8; 14; 31; 33; 133; 159; 161; 6158; 8191; 8203;
                      8231; 8234; 8288; 12287; 12289; 65278]%N = false.
Proof. split; vm_compute; reflexivity. Qed.

(* ===================================================================== *)
(** * Further properties of the users service *)
(* ===================================================================== *)

Lemma lang_star_class (p : N → bool) (s : jsstring) :
  lang (Star (Class p)) s ↔ forallb p s = true.
Proof.
  split.
  - intros H. remember (Star (Class p)) as r eqn:Hr.
    induction H; try discriminate; [reflexivity |].
    injection Hr as ->. inversion H; subst.
    rewrite forallb_app. simpl.
    match goal with E : p _ = true |- _ => rewrite E end.
    simpl. by apply IHlang2.
  - induction s as [|c s IH]; simpl; [constructor |].
    intros [Hc Hs]%andb_true_iff.
    change (lang (Star (Class p)) ([c] ++ s)).
    apply lang_star_cons; [by constructor | auto].
Qed.

(** [[class]+] matches the non-empty strings of characters of the class. *)
Lemma lang_plus_class (p : N → bool) (s : jsstring) :
  lang (Plus (Class p)) s ↔ s ≠ [] ∧ forallb p s = true.
Proof.
  unfold Plus. rewrite lang_cat_iff. split.
  - intros (s1 & s2 & -> & H1 & H2). inversion H1; subst.
    apply lang_star_class in H2. simpl.
    split; [discriminate |].
    match goal with E : p _ = true |- _ => by rewrite E end.
  - intros [Hne Hall]. destruct s as [|c s]; [done |].
    simpl in Hall. apply andb_true_iff in Hall as [Hc Hs].
    exists [c], s. split; [reflexivity |].
    split; [by constructor | by apply lang_star_class].
Qed.

(** X1: [isEmail] accepts exactly the strings [local@domain.tld] whose
    three parts are non-empty and contain neither white space (the
    white-space class of the language, [is_space]) nor [@]; the domain part
    may itself contain dots. *)
Theorem isEmail_shape (s : jsstring) :
  isEmail s = true
  ↔ ∃ local domain tld,
      s = local ++ js "@" ++ domain ++ js "." ++ tld
      ∧ local ≠ [] ∧ domain ≠ [] ∧ tld ≠ []
      ∧ forallb (λ c, negb (is_space c) && negb (is_char "@" c)) local
        = true
      ∧ forallb (λ c, negb (is_space c) && negb (is_char "@" c)) domain
        = true
      ∧ forallb (λ c, negb (is_space c) && negb (is_char "@" c)) tld
        = true.
Proof.
  assert (Hclass : ∀ l, forallb not_space_or_at l
                        = forallb (λ c, negb (is_space c)
                                        && negb (is_char "@" c)) l).
  { intros l. induction l as [|c l IH]; simpl; [done |].
    rewrite IH. unfold not_space_or_at.
    by destruct (is_space c), (is_char "@" c). }
  unfold isEmail, test_anchored, re_email. rewrite matches_lang. split.
  - intros H.
    apply lang_cat_iff in H as (local & r1 & -> & Hl & H).
    apply lang_cat_iff in H as (at_sign & r2 & -> & Ha & H).
    apply lang_cat_iff in H as (domain & r3 & -> & Hd & H).
    apply lang_cat_iff in H as (dot & tld & -> & Hdot & Ht).
    apply lang_lit_iff in Ha as ->. apply lang_lit_iff in Hdot as ->.
    apply lang_plus_class in Hl as [? ?].
    apply lang_plus_class in Hd as [? ?].
    apply lang_plus_class in Ht as [? ?].
    exists local, domain, tld. rewrite <- !Hclass. auto 10.
  - intros (local & domain & tld & -> & ? & ? & ? & Hl & Hd & Ht).
    rewrite <- Hclass in Hl, Hd, Ht.
    constructor; [by apply lang_plus_class |].
    constructor; [by apply lang_lit_iff |].
    constructor; [by apply lang_plus_class |].
    constructor; [by apply lang_lit_iff | by apply lang_plus_class].
Qed.

(** The requests of a list of calls that all carry the same query. *)
Lemma requests_of_encoded (calls : list (Strategy * jsstring))
    (id encoded : jsstring) :
  Forall (λ call, call.2 = id) calls →
  encodeURIComponent id = Some encoded →
  omap request_of calls
  = map (λ call, match call.1 with
                 | Picker => picker_path encoded
                 | Directory => search_path encoded
                 end) calls.
Proof.
  intros Hquery Henc.
  induction calls as [|[s q] calls IH]; [reflexivity |].
  apply Forall_cons in Hquery as [Hq Hquery]. simpl in Hq. subst q.
  change (omap request_of ((s, id) :: calls))
    with (match path_of s id with
          | Some path => path :: omap request_of calls
          | None => omap request_of calls
          end).
  rewrite (IH Hquery). unfold path_of. rewrite Henc. by destruct s.
Qed.

Lemma requests_of_unencodable (calls : list (Strategy * jsstring))
    (id : jsstring) :
  Forall (λ call, call.2 = id) calls →
  encodeURIComponent id = None →
  omap request_of calls = [].
Proof.
  intros Hquery Henc.
  induction calls as [|[s q] calls IH]; [reflexivity |].
  apply Forall_cons in Hquery as [Hq Hquery]. simpl in Hq. subst q.
  change (omap request_of ((s, id) :: calls))
    with (match path_of s id with
          | Some path => path :: omap request_of calls
          | None => omap request_of calls
          end).
  rewrite (IH Hquery). unfold path_of. rewrite Henc. by destruct s.
Qed.

Section ServiceProperties.

Context {rt : Runtime}.

Variable env : Transport.

Lemma same_lower_truthy (s s' : jsstring) :
  toLowerCase s' = toLowerCase s → truthy s' = truthy s.
Proof.
  intros H. by rewrite <- (toLowerCase_truthy s'), H, toLowerCase_truthy.
Qed.

(** The calls and the requests of the chain go together. *)
Lemma search_chain_traffic (id : jsstring) (w : World) :
  ∃ calls,
    invoked (snd (search_chain env id w)) = invoked w ++ calls
    ∧ fetched (snd (search_chain env id w))
      = fetched w ++ match getAtlassianCredentials env with
                     | Some _ => omap request_of calls
                     | None => []
                     end.
Proof.
  destruct (search_chain_cases env id w)
    as [(_ & _ & ->) | [(_ & _ & _ & ->) | [(_ & _ & _ & ->)
       | [(_ & _ & ->) | (_ & _ & ->)]]]];
    rewrite ?searchUsersWithPicker_run, ?searchUsers_run; cbn [snd];
    rewrite !after_call_invoked, !after_call_fetched, <- ?app_assoc;
    (eexists; split; [reflexivity |]);
    unfold request_of, path_of; simpl;
    destruct (getAtlassianCredentials env), (encodeURIComponent id);
    reflexivity.
Qed.

(** The calls and the requests of a resolution go together. *)
Lemma resolve_traffic (id : jsstring) (w : World) :
  ∃ calls,
    invoked (snd (resolveUserIdentifier env id w)) = invoked w ++ calls
    ∧ fetched (snd (resolveUserIdentifier env id w))
      = fetched w ++ match getAtlassianCredentials env with
                     | Some _ => omap request_of calls
                     | None => []
                     end.
Proof.
  destruct (resolve_cases env id w)
    as [(_ & ->) | [(_ & ->) | [(_ & _ & _ & a & ts & -> & _)
       | (Ht & Hc & Hm & ->)]]];
    try (exists []; destruct (getAtlassianCredentials env); simpl;
         by rewrite !app_nil_r).
  destruct (resolve_by_search_world env id (snd (UserCache_get id w)))
    as (_ & Ef & Ei).
  destruct (search_chain_traffic id (snd (UserCache_get id w)))
    as (calls & Ei' & Ef').
  destruct (UserCache_get_total id w) as (r & w0 & E & _ & Hf & Hi & _).
  exists calls. rewrite Ef, Ei, Ef', Ei', E. simpl. by rewrite Hf, Hi.
Qed.

(** X2: with credentials, a resolution sends one request for each strategy
    call whose query can be URL-encoded, in the order of the calls, to the
    endpoint of that strategy and for that query; a call whose query cannot
    be encoded sends none; without credentials no request is sent.  The
    requests and the calls are appended to those made before. *)
Theorem requests_follow_strategy_calls (id : jsstring) (w : World) :
  fetched_by (resolveUserIdentifier env id) w
  = match getAtlassianCredentials env with
    | Some _ =>
        omap request_of (invoked_by (resolveUserIdentifier env id) w)
    | None => []
    end
  ∧ (∀ encoded, encodeURIComponent id = Some encoded →
       omap request_of (invoked_by (resolveUserIdentifier env id) w)
       = map (λ call, match call.1 with
                      | Picker => picker_path encoded
                      | Directory => search_path encoded
                      end)
           (invoked_by (resolveUserIdentifier env id) w))
  ∧ (encodeURIComponent id = None →
     fetched_by (resolveUserIdentifier env id) w = [])
  ∧ fetched (snd (resolveUserIdentifier env id w))
    = fetched w ++ fetched_by (resolveUserIdentifier env id) w
  ∧ invoked (snd (resolveUserIdentifier env id w))
    = invoked w ++ invoked_by (resolveUserIdentifier env id) w.
Proof.
  assert (Hquery : Forall (λ call, call.2 = id)
                     (invoked_by (resolveUserIdentifier env id) w)).
  { destruct (truthy id) eqn:Ht;
      [destruct (isAccountId id) eqn:Hc;
       [| destruct (cache_miss id w) eqn:Hm] |];
      try (rewrite invoked_by_unchanged;
           [apply Forall_nil_2
           | by rewrite resolve_without_search by auto]).
    rewrite (resolve_invoked_by_miss env id w Ht Hc Hm).
    repeat match goal with
           | |- context [if ?b then _ else _] => destruct b
           end; simpl;
      repeat (apply Forall_cons; split; [reflexivity |]);
      apply Forall_nil_2. }
  assert (Hsent : fetched_by (resolveUserIdentifier env id) w
                  = match getAtlassianCredentials env with
                    | Some _ =>
                        omap request_of
                          (invoked_by (resolveUserIdentifier env id) w)
                    | None => []
                    end).
  { unfold fetched_by, invoked_by.
    destruct (resolve_traffic id w) as (calls & -> & ->).
    by rewrite !drop_app_length. }
  split; [done |]. split; [| split; [| split]].
  - intros encoded Henc. by apply (requests_of_encoded _ id).
  - intros Henc. rewrite Hsent.
    destruct (getAtlassianCredentials env); [| done].
    by apply (requests_of_unencodable _ id).
  - unfold fetched_by.
    destruct (resolve_traffic id w) as (calls & _ & ->).
    by rewrite drop_app_length.
  - unfold invoked_by.
    destruct (resolve_traffic id w) as (calls & -> & _).
    by rewrite drop_app_length.
Qed.

(** X3: the strategies are called exactly when the identifier is not
    empty, not canonical and not served by the cache; otherwise the
    resolution leaves the world as it found it (no cache read for an empty
    or canonical identifier, no request, no strategy call). *)
Theorem strategies_called_iff (id : jsstring) (w : World) :
  (invoked_by (resolveUserIdentifier env id) w ≠ []
   ↔ truthy id = true ∧ isAccountId id = false ∧ cache_miss id w = true)
  ∧ (invoked_by (resolveUserIdentifier env id) w = [] →
     snd (resolveUserIdentifier env id w) = w)
  ∧ (id = [] → resolveUserIdentifier env id w = (Returned None, w))
  ∧ (isAccountId id = true →
     resolveUserIdentifier env id w = (Returned (Some id), w)).
Proof.
  assert (Hquiet :
    truthy id = false ∨ isAccountId id = true ∨ cache_miss id w = false →
    snd (resolveUserIdentifier env id w) = w
    ∧ invoked_by (resolveUserIdentifier env id) w = []).
  { intros H. pose proof (resolve_without_search env id w H) as E.
    split; [done |]. apply invoked_by_unchanged. by rewrite E. }
  assert (Hloud :
    truthy id = true → isAccountId id = false → cache_miss id w = true →
    invoked_by (resolveUserIdentifier env id) w ≠ []).
  { intros Ht Hc Hm. rewrite (resolve_invoked_by_miss env id w Ht Hc Hm).
    destruct (isEmail id); [discriminate |]. simpl. discriminate. }
  split; [| split; [| split]].
  - split; [| intros (? & ? & ?); auto].
    intros Hcalls.
    destruct (truthy id) eqn:Ht; [| destruct Hcalls; apply Hquiet; auto].
    destruct (isAccountId id) eqn:Hc; [destruct Hcalls; apply Hquiet; auto |].
    destruct (cache_miss id w) eqn:Hm; [done |].
    destruct Hcalls; apply Hquiet; auto.
  - intros Hnone.
    destruct (truthy id) eqn:Ht; [| apply Hquiet; auto].
    destruct (isAccountId id) eqn:Hc; [apply Hquiet; auto |].
    destruct (cache_miss id w) eqn:Hm; [| apply Hquiet; auto].
    by destruct (Hloud eq_refl eq_refl eq_refl).
  - intros ->. reflexivity.
  - apply resolve_canonical.
Qed.

End ServiceProperties.

(** "557058:a@b.co" is canonical and email-shaped at once: it is returned
    as it is, and the one-hour-old entry under its key is not even read. *)
Lemma strategies_called_iff_witness :
  isEmail (js "557058:a@b.co") = true
  ∧ resolveUserIdentifier (rt := ascii_runtime) env_cached
      (js "557058:a@b.co")
      (world_with_entry "557058:a@b.co" "557058:old" 3600000)
    = (Returned (Some (js "557058:a@b.co")),
       world_with_entry "557058:a@b.co" "557058:old" 3600000).
Proof.
  split; [reflexivity |].
  apply (strategies_called_iff (rt := ascii_runtime) env_cached
           (js "557058:a@b.co")
           (world_with_entry "557058:a@b.co" "557058:old" 3600000)).
  reflexivity.
Defined.

Section ResultProperties.

Context {rt : Runtime}.

Variable env : Transport.

(** X4: [resolveUserIdentifier] never throws, whatever the transport does,
    and what it returns is absent or a non-empty string that is the
    identifier itself (canonical shape), the account id stored under the
    lower-cased identifier in the cache it was given, or the account id of
    a record of the candidate list the search chain ended with. *)
Theorem resolution_result_provenance (id : jsstring) (w : World) :
  ∃ r, fst (resolveUserIdentifier env id w) = Returned r
       ∧ ∀ a, r = Some a →
           a ≠ []
           ∧ ((isAccountId id = true ∧ a = id)
              ∨ (∃ e, cache w !! toLowerCase id = Some e
                      ∧ entry_accountId e = a
                      ∧ now w - timestamp e < TTL)
              ∨ (∃ found u,
                   fst (search_chain env id (snd (UserCache_get id w)))
                   = Returned (Some found)
                   ∧ u ∈ found ∧ accountId u = a)).
Proof.
  destruct (resolve_cases env id w)
    as [(_ & ->) | [(Hc & ->) | [(_ & _ & _ & a' & ts & -> & Ha & Hl & Hts)
       | (Ht & Hc & Hm & E)]]]; simpl.
  - eexists. split; [reflexivity | discriminate].
  - eexists. split; [reflexivity |]. intros a [= <-].
    split; [apply truthy_iff; by apply isAccountId_truthy | auto].
  - eexists. split; [reflexivity |]. intros a [= <-].
    split; [by apply truthy_iff |]. right; left. eauto.
  - destruct (fst (resolveUserIdentifier env id w)) as [r|e] eqn:Hres.
    + exists r. split; [reflexivity |]. intros a ->.
      destruct (resolve_miss_sources env id a w Ht Hc Hm Hres) as [? ?].
      auto.
    + rewrite E in Hres.
      destruct (resolve_by_search_run env id (snd (UserCache_get id w)))
        as (users & w' & _ & Es). rewrite Es in Hres.
      destruct users as [[|u0 us]|];
        try (rewrite settle_nothing in Hres by done; discriminate).
      destruct (select_user_nonempty id u0 us) as (u & Hsel & _).
      rewrite (settle_candidates id _ u w') in Hres by done.
      by destruct (truthy (accountId u)).
Qed.

(** X5: an expired entry counts for nothing: a resolution in a world whose
    cache holds an entry of one hour or more under the identifier's key
    behaves, in result and in the world it leaves, as in the same world
    without that entry. *)
Theorem expired_entry_is_absent (id : jsstring) (w : World)
    (e : CacheEntry) :
  truthy id = true → isAccountId id = false →
  cache w !! toLowerCase id = Some e →
  TTL ≤ now w - timestamp e →
  resolveUserIdentifier env id w
  = resolveUserIdentifier env id (without_entry id w).
Proof.
  intros Ht Hc Hl Hexp.
  rewrite !(resolve_other env id _ Ht Hc).
  unfold resolve_by_cache_and_search.
  rewrite (bind_run _ _ _ _ _ (UserCache_get_expired id w e Hl Hexp)).
  assert (Hgone : cache (without_entry id w) !! toLowerCase id = None)
    by apply lookup_delete_eq.
  by rewrite (bind_run _ _ _ _ _ (UserCache_get_absent id _ Hgone)).
Qed.

(** X6: cache keys ignore case.  When an identifier has resolved, every
    identifier with the same lower-case form that is not itself canonical
    is answered from the cache while the entry is fresh: same account id,
    no strategy call, no request.  The lower-case form is the one of the
    runtime's [toLowerCase], for every string; for strings of ASCII
    characters, two identifiers that are equal up to the case of their
    letters have the same one. *)
Theorem cache_hit_ignores_case (id id' a : jsstring) (w w2 : World) :
  isAccountId id = false →
  fst (resolveUserIdentifier env id w) = Returned (Some a) →
  toLowerCase id' = toLowerCase id
  ∨ (forallb is_ascii id = true ∧ forallb is_ascii id' = true
     ∧ same_letters id' id = true) →
  isAccountId id' = false →
  cache w2 = cache (snd (resolveUserIdentifier env id w)) →
  fresh_entry id w2 = true →
  resolveUserIdentifier env id' w2 = (Returned (Some a), w2)
  ∧ invoked_by (resolveUserIdentifier env id') w2 = []
  ∧ fetched_by (resolveUserIdentifier env id') w2 = [].
Proof.
  intros Hc Hres Hsame Hc' Hcache Hfresh.
  assert (Hlow : toLowerCase id' = toLowerCase id).
  { destruct Hsame as [? | (? & ? & ?)]; [done |].
    by apply toLowerCase_same_letters. }
  destruct (resolve_success_cached env id a w Hc Hres)
    as (Ht & Ha & ts & Hl & _).
  unfold fresh_entry in Hfresh. rewrite Hcache, Hl in Hfresh.
  simpl in Hfresh. apply Z.ltb_lt in Hfresh.
  assert (E : resolveUserIdentifier env id' w2 = (Returned (Some a), w2)).
  { apply (resolve_hit_run env id' a ts w2); try done.
    - by rewrite (same_lower_truthy id id' Hlow).
    - by rewrite Hlow, Hcache. }
  split; [done |].
  split; [apply invoked_by_unchanged | apply fetched_by_unchanged];
    by rewrite E.
Qed.

(** X7: when the first strategy attempted brings candidates (the picker for
    an email-shaped identifier, the directory search otherwise), the
    resolution makes that one call only and sends that one request only:
    there are credentials, the identifier can be URL-encoded, and the
    request goes to that strategy's endpoint with the encoded identifier as
    the query. *)
Theorem first_attempt_suffices (id : jsstring) (w : World) :
  truthy id = true → isAccountId id = false → cache_miss id w = true →
  yields_nothing
    (if isEmail id then searchUsersWithPicker env id else searchUsers env id)
    (snd (UserCache_get id w)) = false →
  invoked_by (resolveUserIdentifier env id) w
  = [(if isEmail id then Picker else Directory, id)]
  ∧ is_Some (getAtlassianCredentials env)
  ∧ ∃ encoded,
      encodeURIComponent id = Some encoded
      ∧ fetched_by (resolveUserIdentifier env id) w
        = [if isEmail id then picker_path encoded
           else search_path encoded].
Proof.
  intros Ht Hc Hm Hfirst.
  assert (Hcalls : invoked_by (resolveUserIdentifier env id) w
                   = [(if isEmail id then Picker else Directory, id)]).
  { rewrite (resolve_invoked_by_miss env id w Ht Hc Hm).
    destruct (isEmail id); by rewrite Hfirst. }
  assert (Hanswered : is_Some (getAtlassianCredentials env)
                      ∧ is_Some (encodeURIComponent id)).
  { assert (Hpath : ∀ s, is_Some (path_of s id) →
                         is_Some (encodeURIComponent id)).
    { intros s. unfold path_of.
      destruct s, (encodeURIComponent id); simpl; eauto; intros [? [=]]. }
    destruct (isEmail id).
    - rewrite yields_nothing_picker in Hfirst.
      destruct (exchange env (fetch_picker env) (path_of Picker id) _)
        eqn:E; try discriminate.
      apply exchange_answered in E as [? ?]. eauto.
    - rewrite yields_nothing_directory in Hfirst.
      destruct (exchange env (fetch_users env) (path_of Directory id) _)
        eqn:E; try discriminate.
      apply exchange_answered in E as [? ?]. eauto. }
  destruct Hanswered as [[c Hcred] [encoded Henc]].
  split; [done |]. split; [eauto |].
  exists encoded. split; [done |].
  unfold invoked_by in Hcalls. unfold fetched_by.
  destruct (resolve_traffic env id w) as (calls & Hi & ->).
  rewrite Hi, drop_app_length in Hcalls.
  rewrite drop_app_length, Hcred, Hcalls.
  unfold request_of, path_of. cbn [omap list_omap fst snd].
  destruct (isEmail id); by rewrite Henc.
Qed.

End ResultProperties.

(** "nobody@example.com" has a one-hour-old entry: the resolution purges it
    and searches, exactly as if the entry had never been there. *)
Lemma expired_entry_is_absent_witness :
  cache (world_with_entry "nobody@example.com" "557058:gone" 3600000)
    !! toLowerCase (Runtime := ascii_runtime) (js "nobody@example.com")
  = Some {| entry_accountId := js "557058:gone"; timestamp := 0 |}
  ∧ resolveUserIdentifier (rt := ascii_runtime) env_nobody
      (js "nobody@example.com")
      (world_with_entry "nobody@example.com" "557058:gone" 3600000)
    = resolveUserIdentifier (rt := ascii_runtime) env_nobody
        (js "nobody@example.com")
        (without_entry (rt := ascii_runtime) (js "nobody@example.com")
           (world_with_entry "nobody@example.com" "557058:gone" 3600000)).
Proof.
  split; [reflexivity |].
  apply (expired_entry_is_absent (rt := ascii_runtime) env_nobody
           (js "nobody@example.com") _
           {| entry_accountId := js "557058:gone"; timestamp := 0 |});
    [reflexivity | reflexivity | reflexivity | vm_compute; discriminate].
Defined.

(** "cached@example.com" has resolved; "Cached@Example.COM" is then
    answered from the cache. *)
Lemma cache_hit_ignores_case_witness :
  same_letters (js "Cached@Example.COM") (js "cached@example.com") = true
  ∧ resolveUserIdentifier (rt := ascii_runtime) env_cached
      (js "Cached@Example.COM")
      (snd (resolveUserIdentifier (rt := ascii_runtime) env_cached
              (js "cached@example.com") empty_world))
    = (Returned (Some (js "557058:cached-user")),
       snd (resolveUserIdentifier (rt := ascii_runtime) env_cached
              (js "cached@example.com") empty_world)).
Proof.
  split; [reflexivity |].
  apply (cache_hit_ignores_case (rt := ascii_runtime) env_cached
           (js "cached@example.com") (js "Cached@Example.COM")
           (js "557058:cached-user") empty_world);
    try reflexivity.
  right. exact (conj eq_refl (conj eq_refl eq_refl)).
Defined.

(** The picker finds the user of "cached@example.com" at once: one call,
    one request. *)
Lemma first_attempt_suffices_witness :
  invoked_by (resolveUserIdentifier (rt := ascii_runtime) env_cached
                (js "cached@example.com")) empty_world
  = [(Picker, js "cached@example.com")]
  ∧ is_Some (getAtlassianCredentials env_cached).
Proof.
  destruct (first_attempt_suffices (rt := ascii_runtime) env_cached
              (js "cached@example.com") empty_world
              eq_refl eq_refl eq_refl eq_refl) as (Hcalls & Hcred & _).
  exact (conj Hcalls Hcred).
Defined.

(* ===================================================================== *)
(** * Further properties of the cache *)
(* ===================================================================== *)

Section CacheProperties.

Context {rt : Runtime}.

Lemma UserCache_set_run (id a : jsstring) (w : World) :
  UserCache_set id a w
  = (Returned tt,
     {| cache := <[toLowerCase id :=
                     {| entry_accountId := a; timestamp := now w |}]>
                   (cache w);
        now := now w; fetched := fetched w; invoked := invoked w |}).
Proof. reflexivity. Qed.

(** X8: an entry lives for one hour.  After [set(id, a)], a read of any
    identifier with the same lower-case form returns [a] as long as less
    than an hour has passed since the write; from one hour on the read
    returns absent and removes the entry.  The write stores the entry
    under the lower-cased identifier, replacing what was there, and leaves
    every other key of the cache as it was.  For strings of ASCII
    characters, identifiers that are equal up to the case of their letters
    have the same lower-case form. *)
Theorem cache_entry_lifetime (id id' a : jsstring) (w w2 : World) :
  toLowerCase id' = toLowerCase id
  ∨ (forallb is_ascii id = true ∧ forallb is_ascii id' = true
     ∧ same_letters id' id = true) →
  cache w2 = cache (snd (UserCache_set id a w)) →
  (now w2 - now w < TTL →
   UserCache_get id' w2 = (Returned (Some a), w2))
  ∧ (TTL ≤ now w2 - now w →
     UserCache_get id' w2 = (Returned None, without_entry id w2)
     ∧ cache (without_entry id w2) !! toLowerCase id = None)
  ∧ cache (snd (UserCache_set id a w)) !! toLowerCase id
    = Some {| entry_accountId := a; timestamp := now w |}
  ∧ (∀ key, key ≠ toLowerCase id →
            cache (snd (UserCache_set id a w)) !! key = cache w !! key).
Proof.
  intros Hsame Hcache.
  assert (Hlow : toLowerCase id' = toLowerCase id).
  { destruct Hsame as [? | (? & ? & ?)]; [done |].
    by apply toLowerCase_same_letters. }
  assert (Hl : cache w2 !! toLowerCase id'
               = Some {| entry_accountId := a; timestamp := now w |}).
  { rewrite Hlow, Hcache, UserCache_set_run. simpl.
    apply lookup_insert_eq. }
  split; [| split; [| split]].
  - intros Ht. by rewrite (UserCache_get_hit id' w2 _ Hl).
  - intros Ht. rewrite (UserCache_get_expired id' w2 _ Hl) by done.
    unfold without_entry. rewrite Hlow.
    split; [reflexivity | apply lookup_delete_eq].
  - rewrite UserCache_set_run. simpl. apply lookup_insert_eq.
  - intros key Hne. rewrite UserCache_set_run. simpl.
    by apply lookup_insert_ne.
Qed.

End CacheProperties.

Lemma cache_entry_lifetime_witness :
  same_letters (js "JOHN") (js "John") = true
  ∧ UserCache_get (rt := ascii_runtime) (js "JOHN")
      {| cache := cache (snd (UserCache_set (rt := ascii_runtime)
                                (js "John") (js "557058:john")
                                empty_world));
         now := 3599999; fetched := []; invoked := [] |}
    = (Returned (Some (js "557058:john")),
       {| cache := cache (snd (UserCache_set (rt := ascii_runtime)
                                 (js "John") (js "557058:john")
                                 empty_world));
          now := 3599999; fetched := []; invoked := [] |}).
Proof.
  split; [reflexivity |].
  apply (cache_entry_lifetime (rt := ascii_runtime) (js "John") (js "JOHN")
           (js "557058:john") empty_world);
    [right; exact (conj eq_refl (conj eq_refl eq_refl))
    | reflexivity | reflexivity].
Defined.

Section SessionProperties.

Context {rt : Runtime}.

Variable env : Transport.

(** X9: [clearUserCache] empties the cache and touches nothing else; after
    it every read is a miss, and the resolution of an identifier that is
    not empty and not canonical calls the strategies again, whatever had
    been cached before; with credentials and an identifier that can be
    URL-encoded it sends at least one request, and at most three in any
    case. *)
Theorem clear_forces_search (id : jsstring) (w : World) :
  cache (snd (clearUserCache w)) = ∅
  ∧ now (snd (clearUserCache w)) = now w
  ∧ fetched (snd (clearUserCache w)) = fetched w
  ∧ invoked (snd (clearUserCache w)) = invoked w
  ∧ UserCache_get id (snd (clearUserCache w))
    = (Returned None, snd (clearUserCache w))
  ∧ (truthy id = true → isAccountId id = false →
     head (invoked_by (resolveUserIdentifier env id)
             (snd (clearUserCache w)))
     = Some (if isEmail id then Picker else Directory, id)
     ∧ (length (fetched_by (resolveUserIdentifier env id)
                  (snd (clearUserCache w))) ≤ 3)%nat
     ∧ (is_Some (getAtlassianCredentials env) →
        is_Some (encodeURIComponent id) →
        (1 ≤ length (fetched_by (resolveUserIdentifier env id)
                       (snd (clearUserCache w))))%nat)).
Proof.
  assert (Hget : UserCache_get id (snd (clearUserCache w))
                 = (Returned None, snd (clearUserCache w)))
    by (apply UserCache_get_absent; apply lookup_empty).
  repeat (split; [done |]).
  intros Ht Hc.
  assert (Hm : cache_miss id (snd (clearUserCache w)) = true)
    by (unfold cache_miss; by rewrite Hget).
  split; [| split].
  - rewrite (resolve_invoked_by_miss env id _ Ht Hc Hm).
    by destruct (isEmail id).
  - exact (proj1 (resolve_fetched_by_miss env id _ Ht Hc Hm)).
  - exact (proj2 (proj2 (proj2 (resolve_fetched_by_miss env id _
                                  Ht Hc Hm)))).
Qed.

Lemma get_preserves_cache_ok (id : jsstring) (w : World) :
  cache_ok w → cache_ok (snd (UserCache_get id w)).
Proof.
  intros Hok.
  destruct (UserCache_get_total id w) as (r & w' & E & _ & _ & _ & Hc).
  rewrite E. unfold cache_ok in *. simpl.
  destruct Hc as [-> | ->]; [done | by apply map_Forall_delete].
Qed.

Lemma resolve_preserves_cache_ok (id : jsstring) (w : World) :
  cache_ok w → cache_ok (snd (resolveUserIdentifier env id w)).
Proof.
  intros Hok.
  destruct (resolve_cases env id w)
    as [(_ & ->) | [(_ & ->) | [(_ & _ & _ & a & ts & -> & _)
       | (Ht & Hc & Hm & ->)]]]; try done.
  destruct (resolve_by_search_run env id (snd (UserCache_get id w)))
    as (users & w' & E & ->).
  assert (Hok' : cache_ok w').
  { pose proof (search_chain_cache env id (snd (UserCache_get id w))) as H.
    rewrite E in H. simpl in H. unfold cache_ok. rewrite H.
    by apply get_preserves_cache_ok. }
  destruct users as [[|u0 us]|]; try (by rewrite settle_nothing).
  destruct (select_user_nonempty id u0 us) as (u & Hsel & _).
  rewrite (settle_candidates id _ u w') by done.
  destruct (truthy (accountId u)) eqn:Hu; [| done].
  unfold cache_ok. simpl. apply map_Forall_insert_2; [| done].
  simpl. split; [apply toLowerCase_idempotent | by apply truthy_iff].
Qed.

(** X10: whatever a client does, starting from the empty cache (any
    sequence of resolutions, cache clears and waits, against any
    transport), every key of the cache is in lower case and every stored
    account id is a non-empty string. *)
Theorem session_keeps_cache_ok (ops : list Op) :
  cache_ok (run env ops empty_world).
Proof.
  unfold run.
  assert (H : ∀ w, cache_ok w → cache_ok (fold_left (step env) ops w)).
  { induction ops as [|op ops IH]; intros w Hok; simpl; [done |].
    apply IH. destruct op as [id | | ms]; simpl.
    - by apply resolve_preserves_cache_ok.
    - apply map_Forall_empty.
    - done. }
  apply H. apply map_Forall_empty.
Qed.

End SessionProperties.

Lemma clear_forces_search_witness :
  is_Some (getAtlassianCredentials env_cached)
  ∧ is_Some (encodeURIComponent (js "cached@example.com"))
  ∧ (1 ≤ length (fetched_by
                   (resolveUserIdentifier (rt := ascii_runtime) env_cached
                      (js "cached@example.com"))
                   (snd (clearUserCache
                           (snd (resolveUserIdentifier
                                   (rt := ascii_runtime) env_cached
                                   (js "cached@example.com")
                                   empty_world))))))%nat.
Proof.
  assert (H : is_Some (getAtlassianCredentials env_cached))
    by (exists mockCredentials; reflexivity).
  assert (H' : is_Some (encodeURIComponent (js "cached@example.com")))
    by (eexists; vm_compute; reflexivity).
  split; [exact H |]. split; [exact H' |].
  destruct (clear_forces_search (rt := ascii_runtime) env_cached
              (js "cached@example.com")
              (snd (resolveUserIdentifier (rt := ascii_runtime) env_cached
                      (js "cached@example.com") empty_world)))
    as (_ & _ & _ & _ & _ & Hagain).
  destruct (Hagain eq_refl eq_refl) as (_ & _ & Hsent).
  exact (Hsent H H').
Defined.

(* ===================================================================== *)
(** * The transitions formatter *)
(* ===================================================================== *)

Lemma transition_lines_length (index : nat) (t : Transition) :
  length (transition_lines index t) = block_size t.
Proof.
  unfold transition_lines, block_size, screen_lines.
  rewrite !length_app. simpl.
  destruct (present (description (to t))), (statusCategory (to t)),
    (is_set (hasScreen t)); simpl; try lia;
    destruct (transition_fields t) as [[|entry entries]|]; simpl;
    rewrite ?length_map; lia.
Qed.

Lemma listing_length (f : nat → Transition → list string)
    (ts : list Transition) :
  (∀ i t, length (f i t) = block_size t) →
  length (concat (imap f ts)) = sum_list (map block_size ts).
Proof.
  revert f. induction ts as [|t ts IH]; intros f Hf; [reflexivity |].
  cbn -[block_size].
  rewrite length_app, Hf. f_equal. apply IH. intros i t'. apply Hf.
Qed.

(** The block of transition number [k] sits in the listing after the blocks
    of the transitions before it. *)
Lemma listing_block (ts : list Transition) (k : nat) (t : Transition) :
  ts !! k = Some t →
  ∃ before after,
    concat (imap transition_lines ts)
    = before ++ transition_lines k t ++ after
    ∧ length before = sum_list (map block_size (take k ts)).
Proof.
  intros Hk.
  assert (Hlen : length (take k ts) = k).
  { apply length_take_le. apply lookup_lt_Some in Hk. lia. }
  exists (concat (imap transition_lines (take k ts))),
    (concat (imap (transition_lines ∘ Nat.add (S k)) (drop (S k) ts))).
  split.
  - transitivity
      (concat (imap transition_lines (take k ts ++ t :: drop (S k) ts)));
      [by rewrite take_drop_middle |].
    rewrite imap_app, concat_app, imap_cons. cbn [concat].
    rewrite Hlen, Nat.add_0_r. do 3 f_equal.
    apply imap_ext. intros i x _. simpl. f_equal. lia.
  - apply listing_length. intros i t'. apply transition_lines_length.
Qed.

(** X11: without transitions (the array is missing or empty) the listing is
    the same fixed message of eight lines under the heading for the issue;
    it has no usage section. *)
Theorem formatTransitions_without_transitions
    (response : GetTransitionsResponse) (issueIdOrKey : string) :
  transitions response = None ∨ transitions response = Some [] →
  formatTransitions response issueIdOrKey
  = formatTransitions {| transitions := None |} issueIdOrKey
  ∧ formatTransitions_lines response issueIdOrKey
    = ("# Available Transitions for " +:+ issueIdOrKey)
      :: "" :: no_transition_lines
  ∧ length (formatTransitions_lines response issueIdOrKey) = 8%nat
  ∧ "## Usage" ∉ formatTransitions_lines response issueIdOrKey.
Proof.
  intros H.
  assert (E : formatTransitions_lines response issueIdOrKey
              = ("# Available Transitions for " +:+ issueIdOrKey)
                :: "" :: no_transition_lines).
  { unfold formatTransitions_lines. by destruct H as [-> | ->]. }
  unfold formatTransitions. rewrite E.
  repeat split; try reflexivity.
  intros Hin. apply elem_of_cons in Hin as [Hin | Hin].
  - destruct issueIdOrKey; discriminate.
  - rewrite !elem_of_cons in Hin. set_unfold.
    destruct Hin as [|[|[|[|[|[|[|]]]]]]]; discriminate || done.
Qed.

Lemma formatTransitions_without_transitions_witness :
  formatTransitions {| transitions := Some [] |} "CLOSED-789"
  = formatTransitions {| transitions := None |} "CLOSED-789".
Proof.
  apply (formatTransitions_without_transitions
           {| transitions := Some [] |} "CLOSED-789").
  right. reflexivity.
Defined.

(** X12: with transitions, the listing announces their number, gives each
    one a block in the order of the response, numbered from 1, and ends
    with the usage section: counting lines and transitions from 0, the
    block of transition [k] starts at line [4 + the sizes of the blocks
    before it] with its numbered name, its id and its target status; the
    listing has ten more lines than the blocks. *)
Theorem formatTransitions_listing (response : GetTransitionsResponse)
    (issueIdOrKey : string) (ts : list Transition) (k : nat)
    (t : Transition) :
  transitions response = Some ts →
  ts !! k = Some t →
  formatTransitions_lines response issueIdOrKey !! 2%nat
  = Some ("Found **" +:+ decimal (length ts)
          +:+ "** available transition(s):")
  ∧ formatTransitions_lines response issueIdOrKey !! block_offset ts k
    = Some ("## " +:+ decimal (k + 1) +:+ ". " +:+ transition_name t)
  ∧ formatTransitions_lines response issueIdOrKey
      !! (block_offset ts k + 1)%nat
    = Some ("**ID:** `" +:+ transition_id t +:+ "`")
  ∧ formatTransitions_lines response issueIdOrKey
      !! (block_offset ts k + 2)%nat
    = Some ("**Target Status:** " +:+ target_name (to t))
  ∧ length (formatTransitions_lines response issueIdOrKey)
    = (10 + sum_list (map block_size ts))%nat
  ∧ drop (4 + sum_list (map block_size ts))
      (formatTransitions_lines response issueIdOrKey)
    = usage_lines issueIdOrKey.
Proof.
  intros Hts Hk. unfold formatTransitions_lines. rewrite Hts.
  destruct ts as [|t0 ts0] eqn:Ets; [done |]. rewrite <- Ets in *.
  assert (Hbody : length (concat (imap transition_lines ts))
                  = sum_list (map block_size ts))
    by (apply listing_length; intros; apply transition_lines_length).
  destruct (listing_block ts k t Hk) as (before & after & E & Hbefore).
  split; [reflexivity |].
  assert (Hat : ∀ j line,
            transition_lines k t !! j = Some line →
            (heading_lines issueIdOrKey
             ++ ["Found **" +:+ decimal (length ts)
                 +:+ "** available transition(s):"; ""]
             ++ concat (imap transition_lines ts)
             ++ usage_lines issueIdOrKey) !! (block_offset ts k + j)%nat
            = Some line).
  { intros j line Hj. rewrite E.
    set (found := ["Found **" +:+ decimal (length ts)
                   +:+ "** available transition(s):"; ""]).
    assert (Hsplit :
      heading_lines issueIdOrKey ++ found
      ++ (before ++ transition_lines k t ++ after)
      ++ usage_lines issueIdOrKey
      = (heading_lines issueIdOrKey ++ found ++ before)
        ++ transition_lines k t ++ after ++ usage_lines issueIdOrKey)
      by (by rewrite <- !app_assoc).
    rewrite Hsplit.
    assert (Hprefix : length (heading_lines issueIdOrKey ++ found ++ before)
                      = block_offset ts k).
    { rewrite !length_app. unfold block_offset. rewrite <- Hbefore.
      simpl. lia. }
    rewrite lookup_app_r by lia.
    replace (block_offset ts k + j
             - length (heading_lines issueIdOrKey ++ found ++ before))%nat
      with j by lia.
    rewrite lookup_app_l; [done |]. by apply lookup_lt_Some in Hj. }
  split; [| split; [| split; [| split]]].
  - rewrite <- (Nat.add_0_r (block_offset ts k)). by apply Hat.
  - by apply Hat.
  - by apply Hat.
  - rewrite !length_app, Hbody. simpl. lia.
  - rewrite <- Hbody.
    change (heading_lines issueIdOrKey) with
      [("# Available Transitions for " +:+ issueIdOrKey); ""].
    cbn [app]. cbn [drop Nat.add].
    by rewrite drop_app_length.
Qed.

(** X13: the fields of a transition are listed only when the transition
    has a screen: the listing of a response is the listing of the same
    response with the fields of the screenless transitions removed. *)
Theorem formatTransitions_hides_fields_without_screen
    (ts : list Transition) (issueIdOrKey : string) :
  formatTransitions {| transitions := Some ts |} issueIdOrKey
  = formatTransitions
      {| transitions := Some (map without_hidden_fields ts) |}
      issueIdOrKey.
Proof.
  assert (Hblock : ∀ i t,
            transition_lines i (without_hidden_fields t)
            = transition_lines i t).
  { intros i t. unfold without_hidden_fields.
    destruct (is_set (hasScreen t)) eqn:E; [reflexivity |].
    unfold transition_lines. simpl. by rewrite E. }
  assert (Hbody : ∀ f g (l : list Transition),
            (∀ i t, g i (without_hidden_fields t) = f i t) →
            imap g (map without_hidden_fields l)
            = imap f l :> list (list string)).
  { intros f g l. revert f g.
    induction l as [|t l IH]; intros f g Hfg; simpl; [reflexivity |].
    rewrite Hfg. f_equal. apply IH. intros i t'. apply Hfg. }
  destruct ts as [|t ts]; [reflexivity |].
  unfold formatTransitions, formatTransitions_lines.
  cbn [transitions map].
  change (without_hidden_fields t :: map without_hidden_fields ts)
    with (map without_hidden_fields (t :: ts)).
  by rewrite (Hbody transition_lines transition_lines (t :: ts)),
    length_map.
Qed.

(** The second transition of the test response starts at line 12, counted
    from 0. *)
Lemma formatTransitions_listing_witness :
  [transition_toDo; transition_inProgress] !! 1%nat
  = Some transition_inProgress
  ∧ formatTransitions_lines
      {| transitions := Some [transition_toDo; transition_inProgress] |}
      "TEST-123" !! 12%nat
    = Some "## 2. In Progress".
Proof.
  split; [reflexivity |].
  exact (proj1 (proj2
           (formatTransitions_listing
              {| transitions :=
                   Some [transition_toDo; transition_inProgress] |}
              "TEST-123" [transition_toDo; transition_inProgress] 1
              transition_inProgress eq_refl eq_refl))).
Defined.

Lemma sapp_cons (c : ascii) (s1 s2 : string) :
  String c s1 +:+ s2 = String c (s1 +:+ s2).
Proof. reflexivity. Qed.

Lemma count_newlines_app (s1 s2 : string) :
  count_newlines (s1 +:+ s2) = (count_newlines s1 + count_newlines s2)%nat.
Proof.
  induction s1 as [|c s1 IH]; [reflexivity |].
  rewrite sapp_cons. simpl. rewrite IH. lia.
Qed.

Lemma count_newlines_join (lines : list string) :
  count_newlines (join_lines lines)
  = (sum_list (map count_newlines lines) + (length lines - 1))%nat.
Proof.
  unfold join_lines. induction lines as [|l lines IH]; [reflexivity |].
  destruct lines as [|l' lines]; [simpl; lia |].
  change (String.concat newline (l :: l' :: lines))
    with (l +:+ newline +:+ String.concat newline (l' :: lines)).
  rewrite !count_newlines_app, IH. simpl. lia.
Qed.

(** X14: a missing status, or a status with an empty name, is shown as
    "Unknown": the result text is the one for the same issue with the
    status name "Unknown". *)
Theorem formatTransitionResult_unknown_status (key id : string)
    (updatedIssue : Issue) :
  status (issue_fields updatedIssue) = None
  ∨ status (issue_fields updatedIssue) = Some {| status_name := "" |} →
  formatTransitionResult key id updatedIssue
  = formatTransitionResult key id (with_status_name "Unknown" updatedIssue)
  ∧ formatTransitionResult_lines key id updatedIssue !! 7%nat
    = Some "- **New Status:** Unknown".
Proof.
  intros H.
  assert (E : status_label updatedIssue = "Unknown")
    by (unfold status_label; by destruct H as [-> | ->]).
  unfold formatTransitionResult, formatTransitionResult_lines.
  rewrite E. split; reflexivity.
Qed.

Lemma formatTransitionResult_unknown_status_witness :
  formatTransitionResult_lines "BUG-456" "31"
    {| issue_id := "10001"; issue_key := "BUG-456";
       issue_fields := {| summary := "Bug Issue"; status := None |} |}
    !! 7%nat
  = Some "- **New Status:** Unknown".
Proof.
  apply (formatTransitionResult_unknown_status "BUG-456" "31"
           {| issue_id := "10001"; issue_key := "BUG-456";
              issue_fields := {| summary := "Bug Issue";
                                 status := None |} |}).
  left. reflexivity.
Defined.

(** X15: the result text has ten lines, plus the line breaks its inputs
    bring: the number of line breaks in it is nine plus those of the issue
    key given, of the key, summary and status name of the issue, and of the
    transition id. *)
Theorem formatTransitionResult_line_breaks (key id : string)
    (updatedIssue : Issue) :
  count_newlines (formatTransitionResult key id updatedIssue)
  = (9 + count_newlines key + count_newlines (issue_key updatedIssue)
     + count_newlines (summary (issue_fields updatedIssue))
     + count_newlines (status_label updatedIssue)
     + count_newlines id)%nat.
Proof.
  unfold formatTransitionResult. rewrite count_newlines_join.
  unfold formatTransitionResult_lines.
  cbn [map sum_list length].
  rewrite !count_newlines_app. simpl. lia.
Qed.

(* ===================================================================== *)
(** * The transitions controller and tools *)
(* ===================================================================== *)

Section TransitionsProperties.

Variable service : IssuesService.

Variable error_content : Error → list TextContent.

Lemma call_run {T : Type} (c : ServiceCall) (answer : nat → Error + T)
    (log : list ServiceCall) :
  call c answer log
  = (match answer (length log) with
     | inl e => Thrown e
     | inr r => Returned r
     end, log ++ [c]).
Proof. unfold call. by destruct (answer (length log)). Qed.

(** X16: [transitionIssue] of the controller calls the service in this
    order: the transition; the comment, only when a non-empty comment was
    given; the re-fetch of status and summary.  It stops at the first call
    that throws and lets that error through, so the calls made are a
    non-empty prefix of the plan whose calls before the last all succeeded;
    when nothing throws the whole plan ran and the content is the result
    text for the re-fetched issue. *)
Theorem transitionIssue_call_order (args : TransitionIssueToolArgs)
    (log : list ServiceCall) :
  ∃ n,
    (1 ≤ n ≤ length (planned_calls args))%nat
    ∧ snd (Controller.transitionIssue service args log)
      = log ++ take n (planned_calls args)
    ∧ (∀ k c, (k < n - 1)%nat → planned_calls args !! k = Some c →
              failure service (length log + k) c = None)
    ∧ match fst (Controller.transitionIssue service args log) with
      | Returned response =>
          n = length (planned_calls args)
          ∧ ∃ updatedIssue,
              service_get service (length log + n - 1) (issueIdOrKey args)
                ["status"; "summary"] = inr updatedIssue
              ∧ content response
                = formatTransitionResult (issueIdOrKey args)
                    (transitionId args) updatedIssue
      | Thrown e =>
          ∃ c, planned_calls args !! (n - 1)%nat = Some c
               ∧ failure service (length log + n - 1) c = Some e
      end.
Proof.
  unfold Controller.transitionIssue, planned_calls, service_bind.
  rewrite call_run.
  destruct (service_transitionIssue service (length log) (issueIdOrKey args)
              (Controller.transitionParams args)) as [e1 | []] eqn:E1.
  { exists 1%nat. simpl. rewrite length_app.
    split; [simpl; lia |]. split; [reflexivity |].
    split; [intros k c Hk; lia |].
    eexists. split; [reflexivity |]. simpl.
    by rewrite Nat.add_sub, E1. }
  assert (Hfirst : failure service (length log + 0)
                     (TransitionIssueCall (issueIdOrKey args)
                        (Controller.transitionParams args)) = None)
    by (simpl; by rewrite Nat.add_0_r, E1).
  destruct (present (comment args)) as [body|] eqn:Hbody.
  - rewrite call_run, length_app. simpl.
    destruct (service_addComment service (length log + 1)
                (issueIdOrKey args) body) as [e2 | []] eqn:E2.
    { exists 2%nat. simpl. rewrite <- app_assoc.
      split; [lia |]. split; [reflexivity |]. split.
      - intros k c Hk Hc. assert (k = 0)%nat as -> by lia.
        by injection Hc as <-.
      - eexists. split; [reflexivity |]. simpl.
        replace (length log + 2 - 1)%nat with (length log + 1)%nat by lia.
        by rewrite E2. }
    rewrite call_run, !length_app. simpl.
    replace (length log + 1 + 1)%nat with (length log + 2)%nat by lia.
    exists 3%nat. simpl. rewrite <- !app_assoc.
    split; [lia |]. split.
    { by destruct (service_get service (length log + 2) (issueIdOrKey args)
                     ["status"; "summary"]). }
    split.
    { intros k c Hk Hc. destruct k as [|[|k]]; [| | lia];
        injection Hc as <-; [done |]. simpl. by rewrite E2. }
    replace (length log + 3 - 1)%nat with (length log + 2)%nat by lia.
    destruct (service_get service (length log + 2) (issueIdOrKey args)
                ["status"; "summary"]) as [e3 | updatedIssue] eqn:E3; simpl.
    + eexists. split; [reflexivity |]. simpl. by rewrite E3.
    + eauto.
  - unfold service_ret. rewrite !call_run, !length_app. simpl.
    exists 2%nat. simpl. rewrite <- !app_assoc.
    split; [lia |]. split.
    { by destruct (service_get service (length log + 1) (issueIdOrKey args)
                     ["status"; "summary"]). }
    split.
    { intros k c Hk Hc. assert (k = 0)%nat as -> by lia.
      by injection Hc as <-. }
    replace (length log + 2 - 1)%nat with (length log + 1)%nat by lia.
    destruct (service_get service (length log + 1) (issueIdOrKey args)
                ["status"; "summary"]) as [e3 | updatedIssue] eqn:E3; simpl.
    + eexists. split; [reflexivity |]. simpl. by rewrite E3.
    + eauto.
Qed.

(** X17: the two tools never throw: whatever the service does, each
    returns a response and makes exactly the service calls of its
    controller; the response is the controller's content as one text item,
    or, when the controller threw, the content the error formatter gives
    for that error. *)
Theorem tools_never_throw (targs : TransitionIssueToolArgs)
    (gargs : GetTransitionsToolArgs) (log : list ServiceCall) :
  (∃ response,
     Tool.transitionIssue service error_content targs log
     = (Returned response,
        snd (Controller.transitionIssue service targs log))
     ∧ tool_content response
       = match fst (Controller.transitionIssue service targs log) with
         | Returned result =>
             [{| content_type := "text"; text := content result |}]
         | Thrown e => error_content e
         end)
  ∧ (∃ response,
       Tool.getTransitions service error_content gargs log
       = (Returned response,
          snd (Controller.getTransitions service gargs log))
       ∧ tool_content response
         = match fst (Controller.getTransitions service gargs log) with
           | Returned result =>
               [{| content_type := "text"; text := content result |}]
           | Thrown e => error_content e
           end).
Proof.
  split.
  - unfold Tool.transitionIssue, service_try, service_bind.
    destruct (Controller.transitionIssue service targs log)
      as [[result | e] log']; simpl; eauto.
  - unfold Tool.getTransitions, service_try, service_bind.
    destruct (Controller.getTransitions service gargs log)
      as [[result | e] log']; simpl; eauto.
Qed.

(** X18: the tool that lists transitions looks at [issueIdOrKey] only: the
    [transitionId] and [expand] arguments its schema accepts change neither
    the one service call it makes nor its response; on a successful answer
    the response is the listing for that answer. *)
Theorem getTransitions_reads_issue_only (args args' : GetTransitionsToolArgs)
    (log : list ServiceCall) :
  get_issueIdOrKey args = get_issueIdOrKey args' →
  Tool.getTransitions service error_content args log
  = Tool.getTransitions service error_content args' log
  ∧ snd (Tool.getTransitions service error_content args log)
    = log ++ [GetTransitionsCall (get_issueIdOrKey args)]
  ∧ (∀ response,
       service_getTransitions service (length log) (get_issueIdOrKey args)
       = inr response →
       fst (Tool.getTransitions service error_content args log)
       = Returned
           {| tool_content :=
                [{| content_type := "text";
                    text := formatTransitions response
                              (get_issueIdOrKey args) |}] |}).
Proof.
  intros Hkey.
  unfold Tool.getTransitions, Controller.getTransitions, service_try,
    service_bind.
  rewrite <- Hkey, !call_run.
  destruct (service_getTransitions service (length log)
              (get_issueIdOrKey args)) as [e | response]; simpl;
    repeat split; try done.
  intros response' [= <-]. reflexivity.
Qed.

End TransitionsProperties.

(** The test 'should handle errors when adding comment fails', seen from
    the tool: the transition is applied, the comment is refused, the issue
    is not fetched again and the response is the formatted error. *)
Example transition_then_refused_comment :
  Tool.transitionIssue service_comment_refused report_error
    args_with_comment []
  = (Returned {| tool_content := report_error (HttpError 403 "Forbidden") |},
     [TransitionIssueCall "TEST-999"
        {| transition := "21"; params_fields := None;
           params_update := None |};
      AddCommentCall "TEST-999" "This will fail"]).
Proof. reflexivity. Qed.

Lemma getTransitions_reads_issue_only_witness :
  Tool.getTransitions service_comment_refused report_error
    {| get_issueIdOrKey := "TEST-123"; get_transitionId := Some "21";
       get_expand := Some "transitions.fields" |} []
  = Tool.getTransitions service_comment_refused report_error
      {| get_issueIdOrKey := "TEST-123"; get_transitionId := None;
         get_expand := None |} [].
Proof.
  apply (getTransitions_reads_issue_only service_comment_refused
           report_error
           {| get_issueIdOrKey := "TEST-123"; get_transitionId := Some "21";
              get_expand := Some "transitions.fields" |}
           {| get_issueIdOrKey := "TEST-123"; get_transitionId := None;
              get_expand := None |} []).
  reflexivity.
Defined.

(* ===================================================================== *)
(** * Sessions *)
(* ===================================================================== *)

Section SessionBounds.

Context {rt : Runtime}.

Variable env : Transport.

(** A resolution keeps the requests sent before it and adds at most
    three. *)
Lemma resolve_requests (id : jsstring) (w : World) :
  ∃ sent, fetched (snd (resolveUserIdentifier env id w)) = fetched w ++ sent
          ∧ (length sent ≤ 3)%nat.
Proof.
  destruct (resolve_cases env id w)
    as [(_ & ->) | [(_ & ->) | [(_ & _ & _ & a & ts & -> & _)
       | (Ht & Hc & Hm & E)]]];
    try (exists []; simpl; rewrite app_nil_r; split; [done | lia]).
  rewrite E.
  destruct (resolve_by_search_world env id (snd (UserCache_get id w)))
    as (_ & -> & _).
  destruct (search_chain_fetched env id (snd (UserCache_get id w)))
    as (sent & -> & Hlen & _).
  destruct (UserCache_get_total id w) as (r & w0 & E0 & _ & Hf & _).
  rewrite E0. simpl. rewrite Hf. eauto.
Qed.

(** X19: in any session the requests only accumulate: the requests sent
    before stay, in their order, and what is added is at most three
    requests for each resolution of the session.  Clearing the cache and
    waiting send nothing; a single resolution adds at most three
    requests. *)
Theorem session_request_bound (ops : list Op) (w : World) :
  (∃ sent, fetched (run env ops w) = fetched w ++ sent
           ∧ (length sent ≤ 3 * length (List.filter is_resolve ops))%nat)
  ∧ fetched (step env w OpClear) = fetched w
  ∧ (∀ ms, fetched (step env w (OpWait ms)) = fetched w)
  ∧ (∀ id, ∃ sent,
       fetched (step env w (OpResolve id)) = fetched w ++ sent
       ∧ (length sent ≤ 3)%nat).
Proof.
  split; [| split; [done | split; [done |]]];
    [| intros id; apply (resolve_requests id w)].
  unfold run. revert w.
  induction ops as [|op ops IH]; intros w; simpl.
  { exists []. rewrite app_nil_r. split; [done | simpl; lia]. }
  destruct (IH (step env w op)) as (later & -> & Hlater).
  destruct op as [id | | ms]; simpl.
  - destruct (resolve_requests id w) as (sent & -> & Hsent).
    exists (sent ++ later). rewrite app_assoc, length_app.
    split; [done | lia].
  - exists later. split; [done | lia].
  - exists later. split; [done | lia].
Qed.

End SessionBounds.

(** A resolution, a clear, a wait and the same resolution again: the
    request of the first resolution stays first, and the session has sent
    two requests, one for each resolution. *)
Example session_of_two_resolutions :
  fetched (run (rt := ascii_runtime) env_cached
             [OpResolve (js "cached@example.com"); OpClear; OpWait 5;
              OpResolve (js "cached@example.com")] empty_world)
  = [js "/rest/api/3/groupuserpicker?query=cached%40example.com&maxResults=10&showAvatar=false";
     js "/rest/api/3/groupuserpicker?query=cached%40example.com&maxResults=10&showAvatar=false"]
  ∧ fetched (run (rt := ascii_runtime) env_cached [OpClear; OpWait 5]
               empty_world) = [].
Proof. split; vm_compute; reflexivity. Qed.
